(** * Verification of the two scripts of the repository

    - [2word_frequency_analysis.py]: a map / shuffle / reduce word counter
      and the selection of the most frequent words for a bar chart;
    - [1async_file_sorter.py]: an asynchronous copier that sorts files into
      folders named after their extension.

    Python values are embedded as follows.
    - [str] is a sequence of Unicode code points, [list N].
    - [int] is [Z].
    - [dict] (and [defaultdict]) is an association list kept in insertion
      order with unique keys: Python dictionaries iterate in insertion order,
      and the order is observable through [sorted], which is stable.
    - A function that can raise returns an [outcome]. *)

From Stdlib Require Import String Ascii.
From Stdlib Require Import List NArith ZArith Lia Bool.
From Stdlib Require Import Permutation Sorted.
Import ListNotations.

Local Open Scope Z_scope.

(** ** Python strings *)

Module PyStr.

(** A [str]: its code points, in order. *)
Definition str := list N.

(** A literal of the source, written as a Rocq string. *)
Fixpoint py (s : string) : str :=
  match s with
  | EmptyString => []
  | String c s' => N_of_ascii c :: py s'
  end.

Definition str_eq_dec : forall a b : str, {a = b} + {a <> b} :=
  list_eq_dec N.eq_dec.

Definition str_eqb (a b : str) : bool :=
  if str_eq_dec a b then true else false.

(** [x in xs] for a collection of strings. *)
Definition str_in (x : str) (xs : list str) : bool := existsb (str_eqb x) xs.

(** [string.punctuation], by code point: 33 to 47 (exclamation mark to
    slash), 58 to 64 (colon to at sign), 91 to 96 (opening bracket to
    backquote) and 123 to 126 (opening brace to tilde). *)
Definition punctuation : str :=
  [33; 34; 35; 36; 37; 38; 39; 40; 41; 42; 43; 44; 45; 46; 47;
   58; 59; 60; 61; 62; 63; 64;
   91; 92; 93; 94; 95; 96;
   123; 124; 125; 126]%N.

(** [str.isspace] on one code point: the white space [str.split()] cuts at. *)
Definition isspace (c : N) : bool :=
  ((9 <=? c) && (c <=? 13) || (28 <=? c) && (c <=? 32)
   || (c =? 133) || (c =? 160) || (c =? 5760)
   || (8192 <=? c) && (c <=? 8202)
   || (c =? 8232) || (c =? 8233) || (c =? 8239) || (c =? 8287)
   || (c =? 12288))%N.

(** [str.split()] without a separator: the maximal runs of code points that
    are not white space; no empty string is produced. [cur] is the run being
    read, most recent code point first. *)
Fixpoint split_from (cur : str) (s : str) : list str :=
  match s with
  | [] => match cur with [] => [] | _ => [rev cur] end
  | c :: s' =>
      if isspace c then
        match cur with
        | [] => split_from [] s'
        | _ => rev cur :: split_from [] s'
        end
      else split_from (c :: cur) s'
  end.

Definition split (s : str) : list str := split_from [] s.

Definition is_ascii (c : N) : bool := (c <? 128)%N.

Definition ascii_lower (c : N) : N :=
  if ((65 <=? c) && (c <=? 90))%N then (c + 32)%N else c.

Section Lower.

(** Lower-casing of a text that has a code point outside ASCII follows the
    Unicode character database, which is data of the Python runtime; it is
    a parameter of the development. *)
Variable unicode_lower : str -> str.

(** [str.lower]. *)
Definition lower (s : str) : str :=
  if forallb is_ascii s then map ascii_lower s else unicode_lower s.

End Lower.

(** [s[1:]]. *)
Definition drop1 (s : str) : str := tl s.

End PyStr.

Import PyStr.

(** ** Python values shared by both scripts *)

(** The result of a call that can raise. *)
Inductive outcome (E A : Type) : Type :=
| Returns (a : A)
| Raises (e : E).
Arguments Returns {E A} a.
Arguments Raises {E A} e.

(** ** Dictionaries in insertion order *)

Module Dict.

Section Dict.

Context {V : Type}.

Definition dict := list (str * V).

(** [d.get(k)]. *)
Fixpoint get (d : dict) (k : str) : option V :=
  match d with
  | [] => None
  | (k', v) :: d' => if str_eqb k' k then Some v else get d' k
  end.

(** [d[k] = v]: an existing key keeps its place, a new key goes last. *)
Fixpoint set (d : dict) (k : str) (v : V) : dict :=
  match d with
  | [] => [(k, v)]
  | (k', v') :: d' =>
      if str_eqb k' k then (k', v) :: d' else (k', v') :: set d' k v
  end.

(** [dict(pairs)]. *)
Definition of_items (pairs : list (str * V)) : dict :=
  fold_left (fun d kv => set d (fst kv) (snd kv)) pairs [].

(** [d.items()], [d.keys()], [d.values()]. *)
Definition items (d : dict) : list (str * V) := d.

Definition keys (d : dict) : list str := map fst d.

Definition values (d : dict) : list V := map snd d.

End Dict.

Arguments dict V : clear implicits.

End Dict.

(** ** [2word_frequency_analysis.py] *)

Module WordFrequency.

Import Dict.

(** [remove_punctuation]: [text.translate(str.maketrans('', '', string.punctuation))]
    deletes every code point of [string.punctuation]. *)
Definition remove_punctuation (text : str) : str :=
  filter (fun c => negb (existsb (N.eqb c) punctuation)) text.

(** [map_function]. *)
Definition map_function (word : str) : str * Z := (word, 1).

(** [shuffled[key].append(value)] on a [defaultdict(list)]: a missing key is
    first inserted, last, with an empty list. *)
Fixpoint append_to_group (shuffled : dict (list Z)) (key : str) (value : Z)
  : dict (list Z) :=
  match shuffled with
  | [] => [(key, [value])]
  | (k, vs) :: rest =>
      if str_eqb k key then (k, vs ++ [value]) :: rest
      else (k, vs) :: append_to_group rest key value
  end.

(** [shuffle_function]. *)
Definition shuffle_function (mapped_values : list (str * Z))
  : list (str * list Z) :=
  items (fold_left (fun shuffled kv => append_to_group shuffled (fst kv) (snd kv))
                   mapped_values []).

(** The builtin [sum]. *)
Definition sum (values : list Z) : Z := fold_left Z.add values 0.

(** [reduce_function]. *)
Definition reduce_function (key_values : str * list Z) : str * Z :=
  let (key, values) := key_values in (key, sum values).

(** The set literal [articles] of [map_reduce]. *)
Definition articles : list str :=
  map py ["the"; "a"; "an"; "of"; "to"; "and"; "in"; "it"; "that"; "not";
          "as"; "is"; "at"; "for"; "but"; "on"; "or"; "by"; "from"]%string.

(** Mapper, Shuffler and Reducer of [map_reduce] on the list [words];
    [executor.map] returns its results in the order of its input. *)
Definition map_shuffle_reduce (words : list str) : dict Z :=
  let mapped_values := map map_function words in
  let shuffled_values := shuffle_function mapped_values in
  let reduced_values := map reduce_function shuffled_values in
  of_items reduced_values.

Section Pipeline.

Variable unicode_lower : str -> str.

(** The first two statements of [map_reduce]: the list [words]. *)
Definition normalized_words (text : str) : list str :=
  let text := lower unicode_lower (remove_punctuation text) in
  filter (fun word => negb (str_in word articles)) (split text).

(** [map_reduce]. *)
Definition map_reduce (text : str) : dict Z :=
  map_shuffle_reduce (normalized_words text).

End Pipeline.

(** *** Presentation *)

(** [sorted(items, key=lambda item: item[1], reverse=True)]. [sorted] is
    stable, also with [reverse=True]: items of equal count keep the order
    they have in [items]. [insert_by_count] puts an item in front of the
    first item of a descending list whose count is not larger. *)
Fixpoint insert_by_count (item : str * Z) (sorted : list (str * Z))
  : list (str * Z) :=
  match sorted with
  | [] => [item]
  | item' :: rest =>
      if snd item <? snd item' then item' :: insert_by_count item rest
      else item :: sorted
  end.

Definition sorted_by_count (items : list (str * Z)) : list (str * Z) :=
  fold_right insert_by_count [] items.

(** The slice [l[:stop]] for an integer [stop]: a negative [stop] counts
    from the end of [l]. *)
Definition slice_to {A : Type} (l : list A) (stop : Z) : list A :=
  let len := Z.of_nat (length l) in
  let stop := if stop <? 0 then Z.max 0 (len + stop) else Z.min stop len in
  firstn (Z.to_nat stop) l.

(** The list [sorted_words] of [visualize_top_words]. *)
Definition sorted_words (result : dict Z) (top_n : Z) : list (str * Z) :=
  slice_to (sorted_by_count (items result)) top_n.

(** The error of an unpacking with too few values. *)
Inductive error : Type :=
| ValueError.

(** [words, frequencies = zip( *sorted_words )]: [zip] of no argument yields
    nothing, and the unpacking into two names raises; of one pair or more
    it yields the tuple of the words and the tuple of the counts. *)
Definition unzip_pairs (pairs : list (str * Z))
  : outcome error (list str * list Z) :=
  match pairs with
  | [] => Raises ValueError
  | _ :: _ => Returns (map fst pairs, map snd pairs)
  end.

(** What [plt.barh] is given: the bars from top to bottom (the y axis is
    inverted), and the number in the title. *)
Record chart : Type := {
  bar_words : list str;
  bar_frequencies : list Z;
  title_top_n : Z
}.

(** [visualize_top_words]. *)
Definition visualize_top_words (result : dict Z) (top_n : Z)
  : outcome error chart :=
  match unzip_pairs (sorted_words result top_n) with
  | Raises e => Raises e
  | Returns (words, frequencies) =>
      Returns {| bar_words := words;
                 bar_frequencies := frequencies;
                 title_top_n := top_n |}
  end.

(** *** Notions the statements use *)

(** The distinct words of a sequence, in the order of their first
    occurrence. *)
Fixpoint first_occurrences (words : list str) : list str :=
  match words with
  | [] => []
  | w :: rest =>
      w :: filter (fun x => negb (str_eqb x w)) (first_occurrences rest)
  end.

(** How often [w] occurs in [words]. *)
Definition occurrences (w : str) (words : list str) : nat :=
  count_occ str_eq_dec words w.

(** The counts kept in all the groups together. *)
Definition all_counts (shuffled : dict (list Z)) : Z :=
  sum (map (fun group => sum (snd group)) shuffled).

(** The items of [items] whose count is [c], in their order. *)
Definition with_count (c : Z) (items : list (str * Z)) : list (str * Z) :=
  filter (fun item => snd item =? c) items.

(** Descending by count. *)
Definition descending (items : list (str * Z)) : Prop :=
  StronglySorted (fun a b => snd b <= snd a) items.

(** [selection] is the top [n] items of [result]: the first [n] (all of
    them when there are fewer, none for [n] below 1) of the items listed by
    descending count, the items of equal count in the order of [result],
    which is the order in which the words were first met. *)
Definition selects_top (n : Z) (result : dict Z) (selection : list (str * Z))
  : Prop :=
  exists rest,
    Permutation (selection ++ rest) (items result) /\
    descending (selection ++ rest) /\
    (forall c, with_count c (selection ++ rest) = with_count c (items result)) /\
    Z.of_nat (length selection) = Z.min (Z.max 0 n) (Z.of_nat (length result)).

(** The result of the example of the specification, in the order in which
    [map_reduce] builds it. *)
Definition cat_result : dict Z :=
  [(py "cat", 3); (py "sat", 1); (py "mat", 1); (py "ran", 1)].

(** *** Fetching the text, and the script *)

(** What [requests.get] answers: the status and the body. *)
Record response : Type := {
  status_code : Z;
  response_text : str
}.

(** An instance of [requests.exceptions.RequestException]: raised by the
    request itself, or the [HTTPError] of [raise_for_status]. *)
Inductive request_exception : Type :=
| RequestException (description : str)
| HTTPError (status : Z).

(** [response.raise_for_status()]: an error status is 400 to 599. *)
Definition raise_for_status (r : response) : outcome request_exception unit :=
  if (400 <=? status_code r) && (status_code r <? 600)
  then Raises (HTTPError (status_code r))
  else Returns tt.

(** A line the script prints. *)
Inductive printed : Type :=
| Fetch_error (e : request_exception)
| Failed_to_fetch.

Section Script.

(** [requests.get], which asks the network. *)
Variable requests_get : str -> outcome request_exception response.

Variable unicode_lower : str -> str.

(** [get_text]: the text, or [None] after a line about the error; with the
    lines printed. *)
Definition get_text (url : str) : option str * list printed :=
  match requests_get url with
  | Raises e => (None, [Fetch_error e])
  | Returns response =>
      match raise_for_status response with
      | Raises e => (None, [Fetch_error e])
      | Returns _ => (Some (response_text response), [])
      end
  end.

Definition url : str := py "https://gutenberg.net.au/ebooks01/0100021.txt".

(** The script: a text that is [None] or empty is not analysed. It returns
    the lines printed and the chart shown, or raises what
    [visualize_top_words] raises. *)
Definition script : outcome error (list printed * option chart) :=
  let (text, lines) := get_text url in
  match text with
  | Some (c :: t) =>
      let result := map_reduce unicode_lower (c :: t) in
      match visualize_top_words result 10 with
      | Raises e => Raises e
      | Returns shown => Returns (lines, Some shown)
      end
  | _ => Returns (lines ++ [Failed_to_fetch], None)
  end.

End Script.

(** *** More notions the statements use *)

(** The values paired with [key] in [mapped_values], in their order. *)
Definition values_of (key : str) (mapped_values : list (str * Z)) : list Z :=
  map snd (filter (fun kv => str_eqb (fst kv) key) mapped_values).

(** The count of [w] in a result, 0 for a word that is not a key. *)
Definition count_of (result : dict Z) (w : str) : Z :=
  match get result w with
  | Some n => n
  | None => 0
  end.

Definition is_punctuation (c : N) : bool := existsb (N.eqb c) punctuation.

Definition is_upper (c : N) : bool := ((65 <=? c) && (c <=? 90))%N.

(** The number of items [visualize_top_words] selects, for any [top_n]. *)
Definition selected_count (size : nat) (top_n : Z) : nat :=
  if top_n <? 0 then size - Z.to_nat (- top_n)
  else Nat.min (Z.to_nat top_n) size.

End WordFrequency.


(** ** [1async_file_sorter.py] *)

Module FileSorter.

(** *** Paths *)

(** A [pathlib.Path]: its components, outermost first. *)
Definition Path := list str.

Definition Path_eq_dec : forall p q : Path, {p = q} + {p <> q} :=
  list_eq_dec str_eq_dec.

(** The name of a directory entry, as [os.walk] lists them: not empty, not
    one of the two special entries, without a separator. *)
Definition is_entry_name (file : str) : bool :=
  negb (str_eqb file (py "")) && negb (str_eqb file (py "."))
  && negb (str_eqb file (py "..")) && negb (existsb (N.eqb 47) file).

(** [p / component] for a component without a separator; [pathlib] drops an
    empty component and the component [.]. *)
Definition joinpath (p : Path) (component : str) : Path :=
  if str_eqb component (py "") || str_eqb component (py ".") then p
  else p ++ [component].

Notation "p // c" := (joinpath p c) (at level 40, left associativity).

(** [p.name] and [p.parent]. *)
Definition name (p : Path) : str := last p [].

Definition parent (p : Path) : Path := removelast p.

(** [s.rfind(c)]: the largest index at which [c] occurs in [s], or -1;
    [i] is the index of the head of [s]. *)
Fixpoint rfind_from (i : Z) (c : N) (s : str) : Z :=
  match s with
  | [] => -1
  | x :: s' =>
      let r := rfind_from (i + 1) c s' in
      if 0 <=? r then r else if (x =? c)%N then i else -1
  end.

Definition rfind (c : N) (s : str) : Z := rfind_from 0 c s.

(** [p.suffix] ([pathlib] of Python 3.13 and earlier): the name from its
    last dot on, when that dot is neither the first nor the last code point
    of the name, else the empty string. 46 is the dot. *)
Definition suffix (p : Path) : str :=
  let name := name p in
  let i := rfind 46 name in
  if (0 <? i) && (i <? Z.of_nat (length name) - 1)
  then skipn (Z.to_nat i) name
  else py "".

(** [source_path.suffix[1:] or "no_extension"]. *)
Definition extension (source_path : Path) : str :=
  match drop1 (suffix source_path) with
  | [] => py "no_extension"
  | c :: s => c :: s
  end.

(** [destination_folder / extension / source_path.name]. *)
Definition destination_path (source_path destination_folder : Path) : Path :=
  destination_folder // extension source_path // name source_path.

(** *** Coroutines over file operations *)

Inductive mode : Type :=
| Rb
| Wb.

(** An open file. *)
Definition handle := N.

Definition bytes := list Byte.byte.

(** An instance of [Exception], as a failing file operation raises it,
    and as [except Exception] catches it. A keyboard interrupt and the
    cancellation of a task are not failures of an operation and are not in
    the model. *)
Inductive exn : Type :=
| Exception (description : str).

(** The operations of [copy_file] on the file system, with the type of
    their results: [mkdir(parents=True, exist_ok=True)], entering
    [aiofiles.open], [read()], [write(data)], and leaving the [async with]
    block, which closes the file. *)
Inductive fs_op : Type -> Type :=
| Mkdir (p : Path) : fs_op unit
| Open (p : Path) (m : mode) : fs_op handle
| Read (h : handle) : fs_op bytes
| Write (h : handle) (data : bytes) : fs_op Z
| Close (h : handle) : fs_op unit.

(** The two messages of [copy_file]. *)
Inductive log_record : Type :=
| Info_copied (source_path destination_path : Path)
| Error_copying (source_path : Path) (e : exn).

(** A coroutine: it returns, raises, performs a file operation and goes on
    with its outcome, or writes to the log and goes on. An operation is
    where a coroutine can be suspended. *)
Inductive coro (A : Type) : Type :=
| Ret (a : A)
| Throw (e : exn)
| Fs {X : Type} (op : fs_op X) (k : outcome exn X -> coro A)
| Log (r : log_record) (k : coro A).
Arguments Ret {A} a.
Arguments Throw {A} e.
Arguments Fs {A X} op k.
Arguments Log {A} r k.

Fixpoint bind {A B : Type} (c : coro A) (f : A -> coro B) : coro B :=
  match c with
  | Ret a => f a
  | Throw e => Throw e
  | Fs op k => Fs op (fun r => bind (k r) f)
  | Log r k => Log r (bind k f)
  end.

Notation "x <- c ;; k" := (bind c (fun x => k))
  (at level 61, c at next level, right associativity).
Notation "c ;; k" := (bind c (fun _ => k))
  (at level 61, right associativity).

(** An operation whose failure is raised. *)
Definition perform {X : Type} (op : fs_op X) : coro X :=
  Fs op (fun r => match r with Returns x => Ret x | Raises e => Throw e end).

Definition logger (r : log_record) : coro unit := Log r (Ret tt).

(** [try: c  except Exception as e: handler e]. *)
Fixpoint try_except {A : Type} (c : coro A) (handler : exn -> coro A) : coro A :=
  match c with
  | Ret a => Ret a
  | Throw e => handler e
  | Fs op k => Fs op (fun r => try_except (k r) handler)
  | Log r k => Log r (try_except k handler)
  end.

(** [c] followed by [cleanup] however [c] ends; an exception of [cleanup]
    replaces that of [c]. *)
Fixpoint finally {A : Type} (c : coro A) (cleanup : coro unit) : coro A :=
  match c with
  | Ret a => cleanup ;; Ret a
  | Throw e => cleanup ;; Throw e
  | Fs op k => Fs op (fun r => finally (k r) cleanup)
  | Log r k => Log r (finally k cleanup)
  end.

(** [async with aiofiles.open(p, m) as f: body f]. *)
Definition async_with_open {A : Type} (p : Path) (m : mode)
  (body : handle -> coro A) : coro A :=
  f <- perform (Open p m) ;;
  finally (body f) (perform (Close f)).

(** [copy_file]. *)
Definition copy_file (source_path destination_folder : Path) : coro unit :=
  try_except
    (let destination_path := destination_path source_path destination_folder in
     perform (Mkdir (parent destination_path)) ;;
     async_with_open source_path Rb (fun src =>
       async_with_open destination_path Wb (fun dst =>
         data <- perform (Read src) ;;
         perform (Write dst data) ;;
         Ret tt)) ;;
     logger (Info_copied source_path destination_path))
    (fun e => logger (Error_copying source_path e)).

(** *** Running coroutines *)

Section Run.

(** The file system: its states, and what an operation does in a state.
    Both are arbitrary, so an operation can fail in any state. *)
Variable FS : Type.

Variable fs_perform : forall X : Type, fs_op X -> FS -> outcome exn X * FS.

(** What a run acts on: the file system and the log of [logger]. *)
Record world : Type := {
  fs : FS;
  log : list log_record
}.

(** One step of a coroutine: up to the point after its next operation. *)
Definition step {A : Type} (c : coro A) (w : world) : coro A * world :=
  match c with
  | Ret a => (Ret a, w)
  | Throw e => (Throw e, w)
  | Fs op k =>
      let (r, fs') := fs_perform _ op (fs w) in
      (k r, {| fs := fs'; log := log w |})
  | Log r k => (k, {| fs := fs w; log := log w ++ [r] |})
  end.

(** A coroutine awaited on its own, to its end. *)
Fixpoint run {A : Type} (c : coro A) (w : world) : outcome exn A * world :=
  match c with
  | Ret a => (Returns a, w)
  | Throw e => (Raises e, w)
  | Fs op k =>
      let (r, fs') := fs_perform _ op (fs w) in
      run (k r) {| fs := fs'; log := log w |}
  | Log r k => run k {| fs := fs w; log := log w ++ [r] |}
  end.

Definition is_done {A : Type} (c : coro A) : bool :=
  match c with
  | Ret _ | Throw _ => true
  | _ => false
  end.

Definition pending_count {A : Type} (tasks : list (coro A)) : nat :=
  length (filter (fun c => negb (is_done c)) tasks).

(** The exception of the first task that has raised. *)
Fixpoint first_raised {A : Type} (tasks : list (coro A)) : option exn :=
  match tasks with
  | [] => None
  | Throw e :: _ => Some e
  | _ :: rest => first_raised rest
  end.

(** The results of the tasks that have returned. *)
Fixpoint results {A : Type} (tasks : list (coro A)) : list A :=
  match tasks with
  | [] => []
  | Ret a :: rest => a :: results rest
  | _ :: rest => results rest
  end.

(** One step of the [n]-th task that is not done. *)
Fixpoint step_pending {A : Type} (n : nat) (tasks : list (coro A)) (w : world)
  : list (coro A) * world :=
  match tasks with
  | [] => ([], w)
  | c :: rest =>
      if is_done c then
        let (rest', w') := step_pending n rest w in (c :: rest', w')
      else
        match n with
        | O => let (c', w') := step c w in (c' :: rest, w')
        | S n' => let (rest', w') := step_pending n' rest w in (c :: rest', w')
        end
  end.

(** [await asyncio.gather( *tasks )]: the event loop steps the tasks that
    are not done, in an order [sched] chooses (the choice at each step is
    any of them), until all are done; the exception of a task that raises
    is raised to the caller at once. [None]: [fuel] steps did not suffice. *)
Fixpoint gather {A : Type} (fuel : nat) (sched : nat -> nat)
  (tasks : list (coro A)) (w : world) : option (outcome exn (list A) * world) :=
  match first_raised tasks with
  | Some e => Some (Raises e, w)
  | None =>
      match pending_count tasks with
      | O => Some (Returns (results tasks), w)
      | S m =>
          match fuel with
          | O => None
          | S fuel' =>
              let (tasks', w') :=
                step_pending (Nat.modulo (sched fuel') (S m)) tasks w in
              gather fuel' sched tasks' w'
          end
      end
  end.

(** [read_folder], on the directories [os.walk] yields: each with its path
    [root] and the names [files] of its files. [sched] gives the order of
    the steps within each directory. *)
Fixpoint read_folder (fuel : nat) (sched : nat -> nat -> nat)
  (walk : list (Path * list str)) (output_folder : Path) (w : world)
  : option (outcome exn unit * world) :=
  match walk with
  | [] => Some (Returns tt, w)
  | (root, files) :: walk' =>
      let tasks :=
        map (fun file => copy_file (root // file) output_folder) files in
      match gather fuel (sched (length walk')) tasks w with
      | None => None
      | Some (Raises e, w') => Some (Raises e, w')
      | Some (Returns _, w') => read_folder fuel sched walk' output_folder w'
      end
  end.

End Run.

Arguments fs {FS} w.
Arguments log {FS} w.

(** *** Notions the statements use *)

(** [r] is a record about the copy of [source_path]. *)
Definition about (source_path : Path) (r : log_record) : Prop :=
  match r with
  | Info_copied p _ => p = source_path
  | Error_copying p _ => p = source_path
  end.

(** What [copy_file source_path] has left to do, [raised] being the
    exceptions its operations have raised so far: within [n] steps, whatever
    its operations do, it writes one record to the log and returns; the
    record says that the file is copied when no operation has failed, and
    else reports an exception that an operation raised. *)
Inductive copies_or_reports (source_path : Path)
  : nat -> list exn -> coro unit -> Prop :=
| cor_info n destination :
    copies_or_reports source_path (S n) []
      (Log (Info_copied source_path destination) (Ret tt))
| cor_error n raised e :
    In e raised ->
    copies_or_reports source_path (S n) raised
      (Log (Error_copying source_path e) (Ret tt))
| cor_fs n raised X (op : fs_op X) k :
    (forall x, copies_or_reports source_path n raised (k (Returns x))) ->
    (forall e, copies_or_reports source_path n (e :: raised) (k (Raises e))) ->
    copies_or_reports source_path (S n) raised (Fs op k).

(** The log has a record about [source_path]. *)
Definition logged (lg : list log_record) (source_path : Path) : Prop :=
  exists r, about source_path r /\ In r lg.

(** A task of [gather] that copies [source_path], the log being [lg]: it
    has returned and the log has its record, or it has at most [n] steps
    left. *)
Inductive task_ok (lg : list log_record) (source_path : Path)
  : nat -> coro unit -> Prop :=
| task_done : logged lg source_path -> task_ok lg source_path 0 (Ret tt)
| task_pending n raised c :
    copies_or_reports source_path n raised c -> task_ok lg source_path n c.

(** The tasks of [gather], one for each path, with the steps left to all
    of them together. *)
Inductive tasks_ok (lg : list log_record)
  : nat -> list Path -> list (coro unit) -> Prop :=
| tasks_nil : tasks_ok lg 0 [] []
| tasks_cons n m p c ps cs :
    task_ok lg p n c ->
    tasks_ok lg m ps cs ->
    tasks_ok lg (n + m) (p :: ps) (c :: cs).

(** The steps [copy_file] takes at most: seven operations and one record. *)
Definition copy_file_steps : nat := 8.

(** *** A small file system, to run the model on examples *)

Module SimpleFs.

(** The files with their contents, and the files opened so far: handle [h]
    is the [h]-th of them. *)
Record state : Type := {
  files : list (Path * bytes);
  opened : list Path
}.

Fixpoint content (fl : list (Path * bytes)) (p : Path) : option bytes :=
  match fl with
  | [] => None
  | (q, b) :: fl' => if Path_eq_dec q p then Some b else content fl' p
  end.

Fixpoint store (fl : list (Path * bytes)) (p : Path) (b : bytes)
  : list (Path * bytes) :=
  match fl with
  | [] => [(p, b)]
  | (q, b') :: fl' =>
      if Path_eq_dec q p then (q, b) :: fl' else (q, b') :: store fl' p b
  end.

Definition no_such_file : exn := Exception (py "No such file or directory").

Definition bad_descriptor : exn := Exception (py "Bad file descriptor").

(** Opening a missing file for reading fails; opening for writing creates
    or empties the file. *)
Definition perform (X : Type) (op : fs_op X) (s : state)
  : outcome exn X * state :=
  match op in fs_op X return outcome exn X * state with
  | Mkdir _ => (Returns tt, s)
  | Open p Rb =>
      match content (files s) p with
      | Some _ =>
          (Returns (N.of_nat (length (opened s))),
           {| files := files s; opened := opened s ++ [p] |})
      | None => (Raises no_such_file, s)
      end
  | Open p Wb =>
      (Returns (N.of_nat (length (opened s))),
       {| files := store (files s) p []; opened := opened s ++ [p] |})
  | Read h =>
      match nth_error (opened s) (N.to_nat h) with
      | Some p =>
          match content (files s) p with
          | Some b => (Returns b, s)
          | None => (Raises no_such_file, s)
          end
      | None => (Raises bad_descriptor, s)
      end
  | Write h data =>
      match nth_error (opened s) (N.to_nat h) with
      | Some p =>
          (Returns (Z.of_nat (length data)),
           {| files := store (files s) p data; opened := opened s |})
      | None => (Raises bad_descriptor, s)
      end
  | Close _ => (Returns tt, s)
  end.

Definition start (fl : list (Path * bytes)) : world state :=
  {| fs := {| files := fl; opened := [] |}; log := [] |}.

(** A directory [src] with the files [a.txt] and [b]; [os.walk] also
    lists a file [ghost.txt], which is gone when it is opened. *)
Definition example_files : list (Path * bytes) :=
  [([py "src"; py "a.txt"], [Byte.x68; Byte.x69]);
   ([py "src"; py "b"], [Byte.x21])].

Definition example_walk : list (Path * list str) :=
  [([py "src"], [py "a.txt"; py "ghost.txt"; py "b"])].

(** The choice at a step is the number of steps left, which makes the
    tasks take their steps in turn. *)
Definition example_sched (directory : nat) (steps_left : nat) : nat :=
  steps_left.

End SimpleFs.

(** *** What a coroutine does, one event after the other *)

(** An operation with its outcome, or a record written to the log. *)
Inductive event : Type :=
| E_mkdir (p : Path) (r : outcome exn unit)
| E_open (p : Path) (m : mode) (r : outcome exn handle)
| E_read (h : handle) (r : outcome exn bytes)
| E_write (h : handle) (data : bytes) (r : outcome exn Z)
| E_close (h : handle) (r : outcome exn unit)
| E_log (r : log_record).

Definition event_of {X : Type} (op : fs_op X) : outcome exn X -> event :=
  match op in fs_op X return outcome exn X -> event with
  | Mkdir p => E_mkdir p
  | Open p m => E_open p m
  | Read h => E_read h
  | Write h data => E_write h data
  | Close h => E_close h
  end.

Section Trace.

Variable FS : Type.

Variable fs_perform : forall X : Type, fs_op X -> FS -> outcome exn X * FS.

(** The events of a coroutine awaited on its own, from the state [s] of
    the file system: what [run] does, written down. *)
Fixpoint trace {A : Type} (c : coro A) (s : FS) : list event :=
  match c with
  | Ret _ => []
  | Throw _ => []
  | Fs op k =>
      let (r, s') := fs_perform _ op s in
      event_of op r :: trace (k r) s'
  | Log r k => E_log r :: trace k s
  end.

End Trace.

(** The handles of the files opened, those of the files closed, the
    exceptions raised and the records written, each in the order of the
    events. *)
Fixpoint opened_handles (t : list event) : list handle :=
  match t with
  | [] => []
  | E_open _ _ (Returns h) :: t' => h :: opened_handles t'
  | _ :: t' => opened_handles t'
  end.

Fixpoint closed_handles (t : list event) : list handle :=
  match t with
  | [] => []
  | E_close h _ :: t' => h :: closed_handles t'
  | _ :: t' => closed_handles t'
  end.

Definition raised_by (e : event) : option exn :=
  match e with
  | E_mkdir _ (Raises x) => Some x
  | E_open _ _ (Raises x) => Some x
  | E_read _ (Raises x) => Some x
  | E_write _ _ (Raises x) => Some x
  | E_close _ (Raises x) => Some x
  | _ => None
  end.

Fixpoint raised_exceptions (t : list event) : list exn :=
  match t with
  | [] => []
  | e :: t' =>
      match raised_by e with
      | Some x => x :: raised_exceptions t'
      | None => raised_exceptions t'
      end
  end.

Fixpoint records (t : list event) : list log_record :=
  match t with
  | [] => []
  | E_log r :: t' => r :: records t'
  | _ :: t' => records t'
  end.

(** The number of files of all the directories. *)
Definition file_count (walk : list (Path * list str)) : nat :=
  list_sum (map (fun entry => length (snd entry)) walk).

End FileSorter.

(** * Proofs *)

(** ** Strings and dictionaries *)

Module PyStrFacts.

Lemma str_eqb_eq a b : str_eqb a b = true <-> a = b.
Proof. unfold str_eqb. destruct (str_eq_dec a b); split; congruence. Qed.

Lemma str_eqb_neq a b : str_eqb a b = false <-> a <> b.
Proof. unfold str_eqb. destruct (str_eq_dec a b); split; congruence. Qed.

Lemma str_eqb_refl a : str_eqb a a = true.
Proof. now apply str_eqb_eq. Qed.

Lemma str_eqb_spec a b : reflect (a = b) (str_eqb a b).
Proof.
  destruct (str_eqb a b) eqn:E; constructor.
  - now apply str_eqb_eq.
  - now apply str_eqb_neq.
Qed.

Lemma str_in_In x xs : str_in x xs = true <-> In x xs.
Proof.
  unfold str_in. rewrite existsb_exists. split.
  - intros [y [Hy E]]. apply str_eqb_eq in E. now subst.
  - intros H. exists x. split; [assumption | apply str_eqb_refl].
Qed.

Lemma str_in_spec x xs : reflect (In x xs) (str_in x xs).
Proof.
  destruct (str_in x xs) eqn:E; constructor.
  - now apply str_in_In.
  - intros H. apply str_in_In in H. congruence.
Qed.

End PyStrFacts.

Module DictFacts.

Import Dict PyStrFacts.

Section DictFacts.

Context {V : Type}.

Implicit Types (d : dict V) (k : str) (v : V).

Lemma get_None d k : get d k = None <-> ~ In k (keys d).
Proof.
  induction d as [|[k' v'] d IH]; simpl.
  - tauto.
  - destruct (str_eqb_spec k' k) as [->|Hne].
    + split; [discriminate | tauto].
    + rewrite IH. tauto.
Qed.

Lemma get_In d k v : get d k = Some v -> In (k, v) d.
Proof.
  induction d as [|[k' v'] d IH]; simpl; [discriminate|].
  destruct (str_eqb_spec k' k) as [->|Hne].
  - intros [= ->]. now left.
  - intros H. right. now apply IH.
Qed.

Lemma In_get d k v : NoDup (keys d) -> In (k, v) d -> get d k = Some v.
Proof.
  induction d as [|[k' v'] d IH]; simpl; [tauto|].
  intros Hnd [[= -> ->]|Hin].
  - now rewrite str_eqb_refl.
  - inversion Hnd as [|? ? Hnotin Hnd']; subst.
    destruct (str_eqb_spec k' k) as [->|Hne].
    + exfalso. apply Hnotin. unfold keys.
      change k with (fst (k, v)). now apply in_map.
    + now apply IH.
Qed.

(** A key that is absent is added last. *)
Lemma set_fresh d k v : ~ In k (keys d) -> set d k v = d ++ [(k, v)].
Proof.
  induction d as [|[k' v'] d IH]; simpl; intros Hk; [reflexivity|].
  destruct (str_eqb_spec k' k) as [->|Hne]; [tauto|].
  rewrite IH; tauto.
Qed.

Lemma of_items_from acc (pairs : list (str * V)) :
  NoDup (keys (acc ++ pairs)) ->
  fold_left (fun d kv => set d (fst kv) (snd kv)) pairs acc = acc ++ pairs.
Proof.
  revert acc. induction pairs as [|[k v] pairs IH]; intros acc Hnd; simpl.
  - now rewrite app_nil_r.
  - rewrite set_fresh.
    + rewrite IH; rewrite <- app_assoc; [reflexivity | exact Hnd].
    + unfold keys in Hnd. rewrite map_app in Hnd. simpl in Hnd.
      apply NoDup_remove_2 in Hnd. intros Hin. apply Hnd.
      apply in_or_app. now left.
Qed.

(** [dict(pairs)] of pairs with distinct keys has the pairs as its items. *)
Lemma of_items_NoDup (pairs : list (str * V)) :
  NoDup (keys pairs) -> of_items pairs = pairs.
Proof. intros H. unfold of_items. now rewrite of_items_from. Qed.

(** A dictionary is its keys, each with what [get] gives for it. *)
Lemma dict_as_map d (f : str -> V) :
  NoDup (keys d) ->
  (forall k, In k (keys d) -> get d k = Some (f k)) ->
  d = map (fun k => (k, f k)) (keys d).
Proof.
  induction d as [|[k v] d IH]; simpl; intros Hnd Hget; [reflexivity|].
  inversion Hnd as [|? ? Hnotin Hnd']; subst.
  f_equal.
  - specialize (Hget k (or_introl eq_refl)). rewrite str_eqb_refl in Hget.
    congruence.
  - apply IH; [assumption|]. intros k' Hk'.
    specialize (Hget k' (or_intror Hk')).
    destruct (str_eqb_spec k k') as [->|Hne]; [tauto | assumption].
Qed.

Lemma get_map_keys (l : list str) (f : str -> V) k :
  get (map (fun k => (k, f k)) l) k = if str_in k l then Some (f k) else None.
Proof.
  induction l as [|k' l IH]; simpl; [reflexivity|].
  rewrite IH. unfold str_eqb at 2.
  destruct (str_eqb_spec k' k) as [->|Hne].
  - destruct (str_eq_dec k k); [reflexivity | congruence].
  - destruct (str_eq_dec k k'); [congruence | reflexivity].
Qed.

End DictFacts.

End DictFacts.

(** ** The word counter *)

Module WordFrequencyFacts.

Import Dict WordFrequency PyStrFacts DictFacts.

(** *** The builtin [sum] *)

Lemma sum_from (l : list Z) (a : Z) : fold_left Z.add l a = a + sum l.
Proof.
  unfold sum. revert a. induction l as [|x l IH]; intros a; simpl.
  - lia.
  - rewrite IH, (IH x). lia.
Qed.

Lemma sum_cons (x : Z) (l : list Z) : sum (x :: l) = x + sum l.
Proof. unfold sum at 1. simpl. apply sum_from. Qed.

Lemma sum_app (l l' : list Z) : sum (l ++ l') = sum l + sum l'.
Proof.
  induction l as [|x l IH]; simpl; [reflexivity|].
  rewrite !sum_cons, IH. lia.
Qed.

Lemma sum_repeat_1 (n : nat) : sum (repeat 1 n) = Z.of_nat n.
Proof.
  induction n as [|n IH]; [reflexivity|].
  cbn [repeat]. rewrite sum_cons, IH. lia.
Qed.

(** *** One pair enters the grouping *)

Lemma keys_append_to_group shuffled key value :
  keys (append_to_group shuffled key value) =
  if str_in key (keys shuffled) then keys shuffled else keys shuffled ++ [key].
Proof.
  induction shuffled as [|[k vs] rest IH]; simpl; [reflexivity|].
  unfold str_eqb at 2.
  destruct (str_eqb_spec k key) as [->|Hne]; simpl.
  - destruct (str_eq_dec key key); [reflexivity | congruence].
  - destruct (str_eq_dec key k); [congruence|]. simpl.
    rewrite IH. unfold keys. now destruct (str_in key (map fst rest)).
Qed.

Lemma get_append_to_group_same shuffled key value :
  get (append_to_group shuffled key value) key =
  Some (match get shuffled key with
        | Some values => values ++ [value]
        | None => [value]
        end).
Proof.
  induction shuffled as [|[k vs] rest IH]; simpl.
  - now rewrite str_eqb_refl.
  - destruct (str_eqb k key) eqn:E; simpl; rewrite E; [reflexivity | exact IH].
Qed.

Lemma get_append_to_group_other shuffled key value k :
  k <> key ->
  get (append_to_group shuffled key value) k = get shuffled k.
Proof.
  intros Hk. induction shuffled as [|[k' vs] rest IH]; simpl.
  - destruct (str_eqb_spec key k); [congruence | reflexivity].
  - destruct (str_eqb_spec k' key) as [->|Hne]; simpl.
    + destruct (str_eqb_spec key k); [congruence | reflexivity].
    + now rewrite IH.
Qed.

Lemma append_to_group_fresh shuffled key value :
  get shuffled key = None ->
  append_to_group shuffled key value = shuffled ++ [(key, [value])].
Proof.
  induction shuffled as [|[k vs] rest IH]; simpl; [reflexivity|].
  destruct (str_eqb k key); [discriminate|].
  intros H. now rewrite IH.
Qed.

Lemma NoDup_keys_append_to_group shuffled key value :
  NoDup (keys shuffled) -> NoDup (keys (append_to_group shuffled key value)).
Proof.
  intros Hnd. rewrite keys_append_to_group.
  destruct (str_in_spec key (keys shuffled)) as [Hin|Hnotin]; [assumption|].
  apply NoDup_app; [assumption | repeat constructor; simpl; tauto |].
  intros x Hx [<-|[]]. tauto.
Qed.

Lemma all_counts_append_to_group shuffled key value :
  all_counts (append_to_group shuffled key value) = all_counts shuffled + value.
Proof.
  unfold all_counts.
  assert (Hnil : sum [] = 0) by reflexivity.
  induction shuffled as [|[k vs] rest IH]; cbn [append_to_group map snd].
  - rewrite !sum_cons, Hnil. lia.
  - destruct (str_eqb k key); cbn [map snd]; rewrite !sum_cons.
    + rewrite sum_app, sum_cons, Hnil. lia.
    + rewrite IH. lia.
Qed.

(** *** The Shuffler, one mapped pair after the other *)

Lemma shuffle_function_snoc mapped_values key value :
  shuffle_function (mapped_values ++ [(key, value)]) =
  append_to_group (shuffle_function mapped_values) key value.
Proof. unfold shuffle_function, items. now rewrite fold_left_app. Qed.

Lemma NoDup_keys_shuffle mapped_values :
  NoDup (keys (shuffle_function mapped_values)).
Proof.
  induction mapped_values as [|[k v] m IH] using rev_ind.
  - constructor.
  - rewrite shuffle_function_snoc. now apply NoDup_keys_append_to_group.
Qed.

Lemma all_counts_shuffle mapped_values :
  all_counts (shuffle_function mapped_values) = sum (map snd mapped_values).
Proof.
  induction mapped_values as [|[k v] m IH] using rev_ind.
  - reflexivity.
  - rewrite shuffle_function_snoc, all_counts_append_to_group, IH.
    rewrite map_app, sum_app. cbn [map snd]. rewrite sum_cons.
    change (sum []) with 0. lia.
Qed.

Lemma keys_map_reduce_function shuffled :
  keys (map reduce_function shuffled) = keys shuffled.
Proof.
  unfold keys. rewrite map_map. apply map_ext. now intros [k vs].
Qed.

(** The Reducer's pairs have distinct words, so [dict] keeps them all. *)
Lemma map_shuffle_reduce_items words :
  map_shuffle_reduce words =
  map reduce_function (shuffle_function (map map_function words)).
Proof.
  unfold map_shuffle_reduce. apply of_items_NoDup.
  rewrite keys_map_reduce_function. apply NoDup_keys_shuffle.
Qed.

Lemma sum_values_reduced shuffled :
  sum (values (map reduce_function shuffled)) = all_counts shuffled.
Proof.
  unfold values, all_counts. rewrite map_map. f_equal.
  apply map_ext. now intros [k vs].
Qed.

Lemma sum_map_function words :
  sum (map snd (map map_function words)) = Z.of_nat (length words).
Proof.
  induction words as [|w words IH]; [reflexivity|].
  cbn [map length]. rewrite sum_cons, IH. simpl snd. lia.
Qed.

Lemma sum_values_map_shuffle_reduce words :
  sum (values (map_shuffle_reduce words)) = Z.of_nat (length words).
Proof.
  rewrite map_shuffle_reduce_items, sum_values_reduced, all_counts_shuffle.
  apply sum_map_function.
Qed.

(** *** First occurrences *)

Lemma In_first_occurrences w words :
  In w (first_occurrences words) <-> In w words.
Proof.
  induction words as [|x words IH]; simpl; [tauto|].
  rewrite filter_In, IH, negb_true_iff, str_eqb_neq.
  destruct (str_eq_dec x w); [tauto|].
  split; [tauto|]. intros [?|?]; [tauto|]. right. split; congruence.
Qed.

Lemma NoDup_first_occurrences words : NoDup (first_occurrences words).
Proof.
  induction words as [|x words IH]; simpl; constructor.
  - rewrite filter_In, str_eqb_refl. simpl. intros [_ H]. discriminate.
  - now apply NoDup_filter.
Qed.

Lemma filter_all {A : Type} (f : A -> bool) (l : list A) :
  (forall x, In x l -> f x = true) -> filter f l = l.
Proof.
  induction l as [|x l IH]; simpl; intros H; [reflexivity|].
  rewrite H by now left. f_equal. apply IH. auto.
Qed.

(** A word read after [words]: new, it is the last first occurrence. *)
Lemma first_occurrences_snoc words w :
  first_occurrences (words ++ [w]) =
  if str_in w words then first_occurrences words
  else first_occurrences words ++ [w].
Proof.
  induction words as [|x words IH]; simpl; [reflexivity|].
  rewrite IH. unfold str_eqb at 2.
  destruct (str_eq_dec w x) as [->|Hne]; simpl.
  - destruct (str_in x words); [reflexivity|].
    rewrite filter_app. simpl. rewrite str_eqb_refl. simpl.
    now rewrite app_nil_r.
  - destruct (str_in w words); [reflexivity|].
    rewrite filter_app. simpl.
    destruct (str_eqb_spec w x); [congruence|]. reflexivity.
Qed.

Lemma occurrences_snoc w words x :
  occurrences w (words ++ [x]) =
  (occurrences w words + if str_eqb x w then 1 else 0)%nat.
Proof.
  unfold occurrences. rewrite count_occ_app. simpl. unfold str_eqb.
  now destruct (str_eq_dec x w).
Qed.

Lemma occurrences_pos w words : (0 < occurrences w words)%nat <-> In w words.
Proof. unfold occurrences. symmetry. apply count_occ_In. Qed.

(** *** The groups of the Shuffler *)

Lemma keys_shuffle words :
  keys (shuffle_function (map map_function words)) = first_occurrences words.
Proof.
  induction words as [|w words IH] using rev_ind; [reflexivity|].
  rewrite map_app. cbn [map]. change (map_function w) with (w, 1).
  rewrite shuffle_function_snoc, keys_append_to_group, IH.
  rewrite first_occurrences_snoc.
  destruct (str_in_spec w (first_occurrences words)) as [Hin|Hnotin];
    rewrite In_first_occurrences in *;
    destruct (str_in_spec w words); tauto.
Qed.

Lemma get_shuffle words w :
  get (shuffle_function (map map_function words)) w =
  if str_in w words then Some (repeat 1 (occurrences w words)) else None.
Proof.
  induction words as [|x words IH] using rev_ind; [reflexivity|].
  rewrite map_app. cbn [map]. change (map_function x) with (x, 1).
  rewrite shuffle_function_snoc, occurrences_snoc.
  destruct (str_eqb_spec x w) as [->|Hne].
  - rewrite get_append_to_group_same, IH.
    replace (str_in w (words ++ [w])) with true
      by (symmetry; apply str_in_In, in_or_app; right; now left).
    f_equal. rewrite repeat_app. simpl.
    destruct (str_in_spec w words) as [Hin|Hnotin]; [reflexivity|].
    replace (occurrences w words) with 0%nat; [reflexivity|].
    symmetry. apply count_occ_not_In. exact Hnotin.
  - rewrite get_append_to_group_other by congruence.
    rewrite IH, Nat.add_0_r.
    destruct (str_in_spec w words) as [Hin|Hnotin];
      destruct (str_in_spec w (words ++ [x])) as [Hin'|Hnotin'];
      try reflexivity.
    + exfalso. apply Hnotin'. apply in_or_app. now left.
    + exfalso. apply in_app_or in Hin'. destruct Hin' as [?|[?|[]]];
        [tauto | congruence].
Qed.

(** The groups: one for each distinct word, in the order of the first
    occurrences, with a 1 for each occurrence. *)
Lemma shuffle_function_groups words :
  shuffle_function (map map_function words) =
  map (fun w => (w, repeat 1 (occurrences w words))) (first_occurrences words).
Proof.
  rewrite <- keys_shuffle. apply dict_as_map.
  - apply NoDup_keys_shuffle.
  - intros k Hk. rewrite get_shuffle.
    rewrite keys_shuffle, In_first_occurrences in Hk.
    now destruct (str_in_spec k words).
Qed.

(** The result: each distinct word with the number of its occurrences. *)
Lemma map_shuffle_reduce_counts words :
  map_shuffle_reduce words =
  map (fun w => (w, Z.of_nat (occurrences w words))) (first_occurrences words).
Proof.
  rewrite map_shuffle_reduce_items, shuffle_function_groups, map_map.
  apply map_ext. intros w. simpl. now rewrite sum_repeat_1.
Qed.

Lemma keys_map_shuffle_reduce words :
  keys (map_shuffle_reduce words) = first_occurrences words.
Proof.
  rewrite map_shuffle_reduce_counts. unfold keys. rewrite map_map.
  simpl. apply map_id.
Qed.

Lemma get_map_shuffle_reduce words w :
  get (map_shuffle_reduce words) w =
  match occurrences w words with
  | O => None
  | S n => Some (Z.of_nat (S n))
  end.
Proof.
  rewrite map_shuffle_reduce_counts.
  rewrite (get_map_keys _ (fun w => Z.of_nat (occurrences w words))).
  destruct (str_in_spec w (first_occurrences words)) as [Hin|Hnotin];
    rewrite In_first_occurrences, <- occurrences_pos in *;
    destruct (occurrences w words); try reflexivity; lia.
Qed.

(** *** The pipeline *)

(** [split()] cuts at runs of white space, here blanks, a tab and a new
    line, and yields no empty word. *)
Example split_example :
  split [32; 32; 97; 98; 9; 10; 99; 32]%N = [[97; 98]; [99]]%N.
Proof. reflexivity. Qed.

(** A word in three spellings counts for one key. *)
Example normalization_example (unicode_lower : str -> str) :
  map_reduce unicode_lower (py "Cat. cat CAT!") = [(py "cat", 3)].
Proof. reflexivity. Qed.

(** C1. Count conservation: for every text, the values of the result of
    [map_reduce] add up to the number of words that are left after the
    punctuation is removed, the text is lower-cased and split at white
    space, and the stop words are taken out. *)
Theorem count_conservation (unicode_lower : str -> str) (text : str) :
  sum (values (map_reduce unicode_lower text)) =
  Z.of_nat (length (normalized_words unicode_lower text)).
Proof. unfold map_reduce. apply sum_values_map_shuffle_reduce. Qed.

Lemma normalized_words_not_article unicode_lower text w :
  In w (normalized_words unicode_lower text) -> ~ In w articles.
Proof.
  unfold normalized_words. rewrite filter_In, negb_true_iff.
  intros [_ H] Hin. apply str_in_In in Hin. congruence.
Qed.

(** C2. Stop-word exclusion: for every text, no word of the stop-word set
    is a key of the result of [map_reduce]; and the text [The,], a stop
    word with an upper-case letter and a comma next to it, gives a result
    without keys. *)
Theorem stop_words_excluded (unicode_lower : str -> str) (text w : str) :
  In w articles ->
  ~ In w (keys (map_reduce unicode_lower text)) /\
  keys (map_reduce unicode_lower (py "The,")) = [].
Proof.
  intros Hw. split; [|reflexivity].
  unfold map_reduce. rewrite keys_map_shuffle_reduce, In_first_occurrences.
  intros Hin. now apply normalized_words_not_article in Hin.
Qed.

(** C3. The example of the specification: the words of
    [The cat sat on the cat mat. A CAT ran!] are cat, sat, cat, mat, cat,
    ran, and [map_reduce] returns cat: 3, sat: 1, mat: 1, ran: 1. *)
Theorem example_text (unicode_lower : str -> str) :
  let text := py "The cat sat on the cat mat. A CAT ran!" in
  normalized_words unicode_lower text =
    map py ["cat"; "sat"; "cat"; "mat"; "cat"; "ran"]%string /\
  map_reduce unicode_lower text =
    [(py "cat", 3); (py "sat", 1); (py "mat", 1); (py "ran", 1)].
Proof. split; vm_compute; reflexivity. Qed.

Lemma Permutation_first_occurrences words words' :
  Permutation words words' ->
  Permutation (first_occurrences words) (first_occurrences words').
Proof.
  intros HP. apply NoDup_Permutation; try apply NoDup_first_occurrences.
  intros w. rewrite !In_first_occurrences.
  split; apply Permutation_in; [assumption | now apply Permutation_sym].
Qed.

Lemma Permutation_occurrences words words' w :
  Permutation words words' -> occurrences w words = occurrences w words'.
Proof.
  intros HP. unfold occurrences.
  now apply (Permutation_count_occ str_eq_dec).
Qed.

(** C4. Commutativity: the words given to the Mapper in another order go
    through Mapper, Shuffler and Reducer to the same mapping: every word
    has the same count, and the items are the same up to their order. *)
Theorem permutation_invariance (words words' : list str) :
  Permutation words words' ->
  (forall w, get (map_shuffle_reduce words) w = get (map_shuffle_reduce words') w)
  /\ Permutation (items (map_shuffle_reduce words))
                 (items (map_shuffle_reduce words')).
Proof.
  intros HP. split.
  - intros w. rewrite !get_map_shuffle_reduce.
    now rewrite (Permutation_occurrences _ _ w HP).
  - unfold items. rewrite !map_shuffle_reduce_counts.
    rewrite (map_ext (fun w => (w, Z.of_nat (occurrences w words)))
                     (fun w => (w, Z.of_nat (occurrences w words')))).
    + apply Permutation_map. now apply Permutation_first_occurrences.
    + intros w. now rewrite (Permutation_occurrences _ _ w HP).
Qed.

(** C5. Empty input: [map_reduce] of the empty string returns the
    dictionary without keys; and so it does for every text that has no
    word left, and for no other text. No statement of [map_reduce] can
    raise on a string, which is why its model is a function: a text
    without words is not an error. *)
Theorem empty_text (unicode_lower : str -> str) :
  map_reduce unicode_lower (py "") = [] /\
  (forall text,
     normalized_words unicode_lower text = [] <->
     map_reduce unicode_lower text = []).
Proof.
  split; [reflexivity|].
  intros text. unfold map_reduce. split.
  - intros ->. reflexivity.
  - intros H. pose proof (keys_map_shuffle_reduce
                            (normalized_words unicode_lower text)) as Hk.
    rewrite H in Hk.
    destruct (normalized_words unicode_lower text); [reflexivity|].
    discriminate.
Qed.

(** A text of white space, punctuation and stop words has no word left. *)
Example no_words_example (unicode_lower : str -> str) :
  map_reduce unicode_lower (py "  The... AND, of?! ") = [].
Proof. reflexivity. Qed.

(** C6. The groups of the Shuffler, for the pairs the Mapper makes of any
    words: their keys are distinct, they are the distinct words in the
    order of their first occurrence, and the counts of a word are as many
    1 as the word has occurrences. One more pair of a word without a
    group adds the group at the end; of a word with a group, it adds a 1
    at the end of its counts and leaves the order of the groups and the
    other groups as they are. *)
Theorem shuffle_groups (words : list str) :
  let groups := shuffle_function (map map_function words) in
  NoDup (keys groups) /\
  keys groups = first_occurrences words /\
  (forall w counts,
     In (w, counts) groups ->
     counts = repeat 1 (occurrences w words) /\ (0 < occurrences w words)%nat) /\
  (forall w,
     let groups' := shuffle_function (map map_function (words ++ [w])) in
     match get groups w with
     | None => groups' = groups ++ [(w, [1])]
     | Some counts =>
         keys groups' = keys groups /\
         get groups' w = Some (counts ++ [1]) /\
         forall w', w' <> w -> get groups' w' = get groups w'
     end).
Proof.
  cbv zeta. split; [apply NoDup_keys_shuffle|].
  split; [apply keys_shuffle|]. split.
  - intros w counts Hin.
    apply In_get in Hin; [|apply NoDup_keys_shuffle].
    rewrite get_shuffle in Hin.
    destruct (str_in_spec w words) as [Hw|Hw]; [|discriminate].
    split; [congruence | now apply occurrences_pos].
  - intros w. rewrite map_app. cbn [map]. change (map_function w) with (w, 1).
    rewrite shuffle_function_snoc.
    destruct (get (shuffle_function (map map_function words)) w) as [counts|] eqn:E.
    + split; [|split].
      * rewrite keys_append_to_group.
        destruct (str_in_spec w (keys (shuffle_function (map map_function words))))
          as [Hin|Hnotin]; [reflexivity|].
        apply get_None in Hnotin. congruence.
      * now rewrite get_append_to_group_same, E.
      * intros w' Hne. now apply get_append_to_group_other.
    + now apply append_to_group_fresh.
Qed.

(** *** The presentation *)

Lemma insert_by_count_perm item sorted :
  Permutation (insert_by_count item sorted) (item :: sorted).
Proof.
  induction sorted as [|y l IH]; simpl; [apply Permutation_refl|].
  destruct (snd item <? snd y); [|apply Permutation_refl].
  rewrite IH. apply perm_swap.
Qed.

Lemma sorted_by_count_perm items : Permutation (sorted_by_count items) items.
Proof.
  induction items as [|x l IH]; simpl; [constructor|].
  rewrite insert_by_count_perm. now constructor.
Qed.

Lemma insert_by_count_descending item sorted :
  descending sorted -> descending (insert_by_count item sorted).
Proof.
  unfold descending. induction sorted as [|y l IH]; simpl; intros Hs.
  - repeat constructor.
  - apply StronglySorted_inv in Hs. destruct Hs as [Hl Hy].
    destruct (Z.ltb_spec (snd item) (snd y)).
    + constructor; [now apply IH|].
      apply (Permutation_Forall (Permutation_sym (insert_by_count_perm item l))).
      constructor; [lia | assumption].
    + constructor; [now constructor|].
      constructor; [lia|].
      eapply Forall_impl; [|exact Hy]. simpl. intros; lia.
Qed.

Lemma sorted_by_count_descending items : descending (sorted_by_count items).
Proof.
  induction items as [|x l IH]; simpl.
  - constructor.
  - now apply insert_by_count_descending.
Qed.

Lemma with_count_insert c item sorted :
  with_count c (insert_by_count item sorted) = with_count c (item :: sorted).
Proof.
  unfold with_count. induction sorted as [|y l IH]; [reflexivity|].
  cbn [insert_by_count].
  destruct (Z.ltb_spec (snd item) (snd y)); [|reflexivity].
  cbn [filter] in *. rewrite IH.
  destruct (Z.eqb_spec (snd item) c); destruct (Z.eqb_spec (snd y) c);
    try reflexivity; lia.
Qed.

(** [sorted] is stable: items of equal count keep their order. *)
Lemma sorted_by_count_stable c items :
  with_count c (sorted_by_count items) = with_count c items.
Proof.
  induction items as [|x l IH]; [reflexivity|].
  cbn [sorted_by_count fold_right]. rewrite with_count_insert.
  unfold with_count in *. cbn [filter]. fold (sorted_by_count l).
  now rewrite IH.
Qed.

Lemma slice_to_nonneg {A : Type} (l : list A) (stop : Z) :
  0 <= stop -> slice_to l stop = firstn (Z.to_nat stop) l.
Proof.
  intros H. unfold slice_to.
  destruct (Z.ltb_spec stop 0); [lia|].
  destruct (Z.le_gt_cases stop (Z.of_nat (length l))).
  - now rewrite Z.min_l.
  - rewrite Z.min_r by lia. rewrite Nat2Z.id.
    rewrite firstn_all, firstn_all2; [reflexivity | lia].
Qed.

(** A negative [stop] leaves out that many items at the end. *)
Lemma slice_to_negative {A : Type} (l : list A) (stop : Z) :
  stop < 0 -> slice_to l stop = firstn (length l - Z.to_nat (- stop)) l.
Proof.
  intros H. unfold slice_to.
  destruct (Z.ltb_spec stop 0); [|lia].
  f_equal. lia.
Qed.

Lemma sorted_words_selects_top result top_n :
  0 <= top_n -> selects_top top_n result (sorted_words result top_n).
Proof.
  intros H. unfold sorted_words. rewrite slice_to_nonneg by assumption.
  exists (skipn (Z.to_nat top_n) (sorted_by_count (items result))).
  rewrite firstn_skipn. repeat split.
  - apply sorted_by_count_perm.
  - apply sorted_by_count_descending.
  - intros c. apply sorted_by_count_stable.
  - rewrite length_firstn.
    rewrite (Permutation_length (sorted_by_count_perm (items result))).
    unfold items. lia.
Qed.

Lemma descending_head_max a l x :
  descending (a :: l) -> In x (a :: l) -> snd x <= snd a.
Proof.
  intros Hs Hin. apply StronglySorted_inv in Hs. destruct Hs as [_ Ha].
  destruct Hin as [->|Hin]; [lia|].
  rewrite Forall_forall in Ha. now apply Ha.
Qed.

Lemma In_cat_result x : In x cat_result -> x = (py "cat", 3) \/ snd x = 1.
Proof. simpl. intros [<-|[<-|[<-|[<-|[]]]]]; auto. Qed.

(** Whatever the order of the words in the result of the example, the two
    top words are cat and a word of count 1. *)
Lemma cat_ranks_first result :
  Permutation result cat_result ->
  exists other,
    sorted_words result 2 = [(py "cat", 3); other] /\ snd other = 1.
Proof.
  intros HP. unfold sorted_words. rewrite slice_to_nonneg by lia.
  pose proof (sorted_by_count_perm (items result)) as Hperm.
  pose proof (sorted_by_count_descending (items result)) as Hdesc.
  unfold items in *.
  assert (HP' : Permutation (sorted_by_count result) cat_result)
    by (etransitivity; eassumption).
  assert (Hnd : NoDup (sorted_by_count result)).
  { apply (Permutation_NoDup (Permutation_sym HP')).
    repeat constructor; simpl; intuition discriminate. }
  pose proof (Permutation_length HP') as Hlen.
  destruct (sorted_by_count result) as [|a [|b l]]; try discriminate.
  assert (Ha : a = (py "cat", 3)).
  { assert (Hcat : In (py "cat", 3) (a :: b :: l))
      by (apply (Permutation_in _ (Permutation_sym HP')); now left).
    pose proof (descending_head_max _ _ _ Hdesc Hcat) as Hle.
    destruct (In_cat_result a) as [->|Hone]; [|reflexivity|].
    - apply (Permutation_in _ HP'). now left.
    - simpl in Hle. lia. }
  exists b. split; [simpl; now rewrite Ha|].
  destruct (In_cat_result b) as [->|Hone]; [| |assumption].
  - apply (Permutation_in _ HP'). right. now left.
  - subst a. inversion Hnd as [|? ? Hnotin _]; subst.
    exfalso. apply Hnotin. now left.
Qed.

(** C7, as amended. For every result that is not empty and every [top_n]
    that is not negative, [visualize_top_words] selects the top [top_n]
    items: the first [top_n] (all, when there are fewer) of the items in
    descending order of count, items of equal count in the order in which
    their words were first met. For [top_n] 2 and the result of the example,
    in whatever order its words are, the first item is cat with count 3 and
    the second a word of count 1. *)
Theorem top_words_selected (result : dict Z) (top_n : Z) :
  items result <> [] ->
  0 <= top_n ->
  selects_top top_n result (sorted_words result top_n) /\
  (forall result',
     Permutation result' cat_result ->
     exists other,
       sorted_words result' 2 = [(py "cat", 3); other] /\ snd other = 1).
Proof.
  intros _ H. split.
  - now apply sorted_words_selects_top.
  - apply cat_ranks_first.
Qed.

Lemma top_words_selected_witness :
  items cat_result <> [] /\ 0 <= 2 /\
  selects_top 2 cat_result (sorted_words cat_result 2) /\
  (forall result',
     Permutation result' cat_result ->
     exists other,
       sorted_words result' 2 = [(py "cat", 3); other] /\ snd other = 1).
Proof.
  split; [discriminate|]. split; [lia|].
  apply (top_words_selected cat_result 2); [discriminate | lia].
Defined.

(** With [top_n] -1 the slice leaves out the last item of the four: three
    items are selected. *)
Example sorted_words_minus_one :
  sorted_words cat_result (-1) =
  [(py "cat", 3); (py "sat", 1); (py "mat", 1)].
Proof. reflexivity. Qed.

(** C7 as stated fails for a negative [top_n]: for the result of the
    example and [top_n] -1, the three items selected are not the top -1
    items. *)
Lemma negative_top_n_not_top :
  items cat_result <> [] /\
  ~ selects_top (-1) cat_result (sorted_words cat_result (-1)).
Proof.
  split; [discriminate|].
  intros [rest (_ & _ & _ & Hlen)].
  rewrite sorted_words_minus_one in Hlen. simpl in Hlen. lia.
Qed.

(** C10. [visualize_top_words] raises on the empty result whatever [top_n]
    is, the unpacking of no pair failing; and when it returns a chart, the
    result is not empty and the chart has a bar. *)
Theorem visualize_empty_raises :
  (forall top_n, visualize_top_words [] top_n = Raises ValueError) /\
  (forall result top_n chart,
     visualize_top_words result top_n = Returns chart ->
     items result <> [] /\ bar_words chart <> []).
Proof.
  split.
  - intros top_n. unfold visualize_top_words, sorted_words, slice_to.
    simpl. now rewrite firstn_nil.
  - intros result top_n chart.
    unfold visualize_top_words, sorted_words.
    destruct result as [|item result].
    + unfold slice_to. simpl. rewrite firstn_nil. discriminate.
    + intros H. split; [discriminate|].
      destruct (slice_to _ top_n) as [|x l]; simpl in H; [discriminate|].
      injection H as <-. discriminate.
Qed.

Lemma visualize_empty_raises_witness :
  visualize_top_words [] 10 = Raises ValueError /\
  items cat_result <> [] /\
  bar_words {| bar_words := [py "cat"; py "sat"];
               bar_frequencies := [3; 1];
               title_top_n := 2 |} <> [].
Proof.
  split.
  - apply (proj1 visualize_empty_raises).
  - apply (proj2 visualize_empty_raises cat_result 2). reflexivity.
Defined.

(** A chart is drawn for the example. *)
Example visualize_cat_result :
  visualize_top_words cat_result 2 =
  Returns {| bar_words := [py "cat"; py "sat"];
             bar_frequencies := [3; 1];
             title_top_n := 2 |}.
Proof. reflexivity. Qed.

(** With [top_n] 0 no item is selected and the unpacking fails too. *)
Example visualize_top_0 :
  visualize_top_words cat_result 0 = Raises ValueError.
Proof. reflexivity. Qed.

(** *** Examples that meet the hypotheses *)

Lemma stop_words_excluded_witness :
  In (py "the") articles /\
  ~ In (py "the") (keys (map_reduce (fun s => s) (py "The cat and THE hat."))) /\
  keys (map_reduce (fun s => s) (py "The,")) = [].
Proof.
  assert (H : In (py "the") articles) by (left; reflexivity).
  split; [exact H|].
  exact (stop_words_excluded (fun s => s) (py "The cat and THE hat.") (py "the") H).
Defined.

Lemma permutation_invariance_witness :
  Permutation [py "cat"; py "sat"; py "cat"] [py "sat"; py "cat"; py "cat"] /\
  (forall w,
     get (map_shuffle_reduce [py "cat"; py "sat"; py "cat"]) w =
     get (map_shuffle_reduce [py "sat"; py "cat"; py "cat"]) w) /\
  Permutation (items (map_shuffle_reduce [py "cat"; py "sat"; py "cat"]))
              (items (map_shuffle_reduce [py "sat"; py "cat"; py "cat"])).
Proof.
  assert (H : Permutation [py "cat"; py "sat"; py "cat"]
                          [py "sat"; py "cat"; py "cat"]) by apply perm_swap.
  split; [exact H|].
  exact (permutation_invariance _ _ H).
Defined.

Lemma shuffle_groups_witness :
  In (py "cat", [1; 1])
     (shuffle_function (map map_function [py "cat"; py "sat"; py "cat"])) /\
  [1; 1] = repeat 1 (occurrences (py "cat") [py "cat"; py "sat"; py "cat"]) /\
  (0 < occurrences (py "cat") [py "cat"; py "sat"; py "cat"])%nat.
Proof.
  assert (H : In (py "cat", [1; 1])
                (shuffle_function
                   (map map_function [py "cat"; py "sat"; py "cat"])))
    by (left; reflexivity).
  split; [exact H|].
  exact (proj1 (proj2 (proj2 (shuffle_groups [py "cat"; py "sat"; py "cat"])))
           (py "cat") [1; 1] H).
Defined.

(** The order of the keys does change with the order of the words. *)
Example permuted_words_order :
  map_shuffle_reduce [py "cat"; py "sat"; py "cat"] = [(py "cat", 2); (py "sat", 1)] /\
  map_shuffle_reduce [py "sat"; py "cat"; py "cat"] = [(py "sat", 1); (py "cat", 2)].
Proof. split; reflexivity. Qed.

End WordFrequencyFacts.

(** ** The file sorter *)

Module FileSorterFacts.

Import FileSorter PyStrFacts.

(** *** [copy_file] handles the failures of its operations *)

Lemma copy_file_copies_or_reports source_path destination_folder :
  copies_or_reports source_path copy_file_steps []
    (copy_file source_path destination_folder).
Proof.
  unfold copy_file, copy_file_steps, async_with_open, perform, logger.
  simpl.
  repeat first
    [ apply cor_info
    | apply cor_error; simpl; tauto
    | apply cor_fs; intros ?; simpl ].
Qed.

Section RunFacts.

Variable FS : Type.

Variable fs_perform : forall X : Type, fs_op X -> FS -> outcome exn X * FS.

Local Abbreviation world := (world FS).
Local Abbreviation run := (run FS fs_perform).
Local Abbreviation step := (step FS fs_perform).
Local Abbreviation step_pending := (step_pending FS fs_perform).
Local Abbreviation gather := (gather FS fs_perform).
Local Abbreviation read_folder := (read_folder FS fs_perform).

(** Awaited on its own, such a coroutine returns, the log one record
    longer. *)
Lemma run_copies_or_reports source_path n raised c (w : world) :
  copies_or_reports source_path n raised c ->
  exists fs' r,
    run c w = (Returns tt, {| fs := fs'; log := log w ++ [r] |}) /\
    about source_path r.
Proof.
  intros H. revert w.
  induction H as [n dst | n raised e He | n raised X op k _ IHx _ IHe];
    intros w; simpl.
  - eexists _, _. split; reflexivity.
  - eexists _, _. split; reflexivity.
  - destruct (fs_perform X op (fs w)) as [[x|e] fs'].
    + destruct (IHx x {| fs := fs'; log := log w |}) as (fs'' & r & Hrun & Hr).
      exists fs'', r. now split.
    + destruct (IHe e {| fs := fs'; log := log w |}) as (fs'' & r & Hrun & Hr).
      exists fs'', r. now split.
Qed.

Lemma logged_app lg lg' p : logged lg p -> logged (lg ++ lg') p.
Proof.
  intros (r & Hr & Hin). exists r. split; [assumption|].
  apply in_or_app. now left.
Qed.

Lemma task_ok_app lg lg' p n c : task_ok lg p n c -> task_ok (lg ++ lg') p n c.
Proof.
  intros [Hl | m raised c' Hc].
  - constructor. now apply logged_app.
  - econstructor. eassumption.
Qed.

Lemma tasks_ok_app lg lg' b ps cs :
  tasks_ok lg b ps cs -> tasks_ok (lg ++ lg') b ps cs.
Proof.
  induction 1; constructor; auto using task_ok_app.
Qed.

Lemma copies_or_reports_pending p n raised c :
  copies_or_reports p n raised c -> is_done c = false /\ (0 < n)%nat.
Proof. intros []; split; (reflexivity || lia). Qed.

(** One step of a task: it has fewer steps left, and the log grows. *)
Lemma step_task_ok (w : world) p n raised c :
  copies_or_reports p n raised c ->
  exists n' lg',
    (n' < n)%nat /\
    log (snd (step c w)) = log w ++ lg' /\
    task_ok (log w ++ lg') p n' (fst (step c w)).
Proof.
  intros [m dst | m raised' e He | m raised' X op k Hx He]; simpl.
  - exists 0%nat, [Info_copied p dst]. repeat split; [lia|].
    constructor. eexists. split; [|apply in_or_app; right; now left]. reflexivity.
  - exists 0%nat, [Error_copying p e]. repeat split; [lia|].
    constructor. eexists. split; [|apply in_or_app; right; now left]. reflexivity.
  - destruct (fs_perform X op (fs w)) as [[x|e] fs']; simpl;
      exists m, []; rewrite app_nil_r; repeat split; try lia;
      econstructor; eauto.
Qed.

Lemma tasks_ok_not_raised lg b ps cs :
  tasks_ok lg b ps cs -> first_raised cs = None.
Proof.
  induction 1 as [|n m p c ps cs Hc _ IH]; [reflexivity|].
  destruct Hc as [|k raised c Hc]; [exact IH|].
  destruct Hc; exact IH.
Qed.

Lemma pending_count_cons {A : Type} (c : coro A) cs :
  pending_count (c :: cs) =
  ((if is_done c then 0 else 1) + pending_count cs)%nat.
Proof. unfold pending_count. simpl. now destruct (is_done c). Qed.

Lemma tasks_ok_length lg b ps cs :
  tasks_ok lg b ps cs -> length cs = length ps.
Proof. induction 1; simpl; congruence. Qed.

(** When no task is pending, all have returned and have their record. *)
Lemma tasks_ok_all_done lg b ps cs :
  tasks_ok lg b ps cs ->
  pending_count cs = 0%nat ->
  results cs = repeat tt (length cs) /\ Forall (logged lg) ps.
Proof.
  induction 1 as [|n m p c ps cs Hc _ IH]; intros Hp.
  - split; constructor.
  - rewrite pending_count_cons in Hp.
    destruct Hc as [Hl|k raised c Hc].
    + destruct IH as [IH1 IH2]; [exact Hp|].
      split; [simpl; now rewrite IH1 | now constructor].
    + apply copies_or_reports_pending in Hc. destruct Hc as [Hd _].
      rewrite Hd in Hp. discriminate.
Qed.

(** A step of [gather]: the tasks have fewer steps left together. *)
Lemma step_pending_ok (w : world) b ps cs k :
  tasks_ok (log w) b ps cs ->
  (k < pending_count cs)%nat ->
  exists b' lg',
    (b' < b)%nat /\
    log (snd (step_pending k cs w)) = log w ++ lg' /\
    tasks_ok (log w ++ lg') b' ps (fst (step_pending k cs w)).
Proof.
  intros H. revert k.
  induction H as [|n m p c ps cs Hc Hcs IH]; intros k Hk.
  - unfold pending_count in Hk. simpl in Hk. lia.
  - rewrite pending_count_cons in Hk. cbn [step_pending].
    destruct Hc as [Hl|j raised c Hc].
    + cbn [is_done]. cbn [is_done] in Hk.
      destruct (IH k Hk) as (b' & lg' & Hlt & Hlog & Hok).
      destruct (step_pending k cs w) as [cs' w']. simpl in *.
      exists b', lg'. repeat split; [lia | assumption |].
      apply (tasks_cons _ 0 b'); [|assumption].
      constructor. now apply logged_app.
    + pose proof (copies_or_reports_pending _ _ _ _ Hc) as [Hd Hpos].
      rewrite Hd in *. destruct k as [|k].
      * destruct (step_task_ok w _ _ _ _ Hc) as (n' & lg' & Hlt & Hlog & Hok).
        destruct (step c w) as [c' w']. simpl in *.
        exists (n' + m)%nat, lg'. repeat split; [lia | assumption |].
        constructor; [assumption | now apply tasks_ok_app].
      * destruct (IH k ltac:(lia)) as (b' & lg' & Hlt & Hlog & Hok).
        destruct (step_pending k cs w) as [cs' w']. simpl in *.
        exists (j + b')%nat, lg'. repeat split; [lia | assumption |].
        constructor; [|assumption]. econstructor. eassumption.
Qed.

(** [gather] returns when the fuel covers the steps the tasks have left:
    no task raises, and every path has its record in the log. *)
Lemma gather_tasks_ok fuel sched (w : world) b ps cs :
  tasks_ok (log w) b ps cs ->
  (b <= fuel)%nat ->
  exists w' lg',
    gather fuel sched cs w = Some (Returns (repeat tt (length cs)), w') /\
    log w' = log w ++ lg' /\
    Forall (logged (log w')) ps.
Proof.
  revert w b cs. induction fuel as [|fuel IH]; intros w b cs Hok Hb.
  - cbn [gather]. rewrite (tasks_ok_not_raised _ _ _ _ Hok).
    destruct (pending_count cs) as [|m] eqn:Hp.
    + destruct (tasks_ok_all_done _ _ _ _ Hok Hp) as [Hres Hlog].
      exists w, []. rewrite Hres, app_nil_r. now repeat split.
    + destruct (step_pending_ok w b ps cs 0 Hok ltac:(lia)) as (b' & _ & Hlt & _).
      lia.
  - cbn [gather]. rewrite (tasks_ok_not_raised _ _ _ _ Hok).
    destruct (pending_count cs) as [|m] eqn:Hp.
    + destruct (tasks_ok_all_done _ _ _ _ Hok Hp) as [Hres Hlog].
      exists w, []. rewrite Hres, app_nil_r. now repeat split.
    + assert (Hk : (Nat.modulo (sched fuel) (S m) < pending_count cs)%nat)
        by (rewrite Hp; apply Nat.mod_upper_bound; lia).
      destruct (step_pending_ok w b ps cs _ Hok Hk)
        as (b' & lg' & Hlt & Hlog & Hok').
      destruct (step_pending (Nat.modulo (sched fuel) (S m)) cs w)
        as [cs' w'] eqn:E.
      simpl in Hlog, Hok'. rewrite <- Hlog in Hok'.
      destruct (IH w' b' cs' Hok' ltac:(lia)) as (w'' & lg'' & Hg & Hlog' & Hall).
      exists w'', (lg' ++ lg''). repeat split.
      * rewrite Hg.
        now rewrite (tasks_ok_length _ _ _ _ Hok'), (tasks_ok_length _ _ _ _ Hok).
      * now rewrite Hlog', Hlog, app_assoc.
      * assumption.
Qed.

Lemma tasks_ok_copy_files lg root output_folder files :
  tasks_ok lg (copy_file_steps * length files)
    (map (fun file => root // file) files)
    (map (fun file => copy_file (root // file) output_folder) files).
Proof.
  induction files as [|file files IH]; simpl length.
  - rewrite Nat.mul_0_r. constructor.
  - replace (copy_file_steps * S (length files))%nat
      with (copy_file_steps + copy_file_steps * length files)%nat by lia.
    cbn [map]. constructor; [|exact IH].
    econstructor. apply copy_file_copies_or_reports.
Qed.

(** [read_folder] returns when the fuel covers the steps of the files of
    each directory, and every file has its record in the log. *)
Lemma read_folder_returns fuel sched walk output_folder (w : world) :
  (forall root files,
     In (root, files) walk -> (copy_file_steps * length files <= fuel)%nat) ->
  exists w' lg',
    read_folder fuel sched walk output_folder w = Some (Returns tt, w') /\
    log w' = log w ++ lg' /\
    forall root files file,
      In (root, files) walk -> In file files -> logged (log w') (root // file).
Proof.
  revert w. induction walk as [|[root files] walk IH]; intros w Hfuel.
  - exists w, []. rewrite app_nil_r. repeat split. intros ? ? ? [].
  - cbn [read_folder].
    destruct (gather_tasks_ok fuel (sched (length walk)) w _ _ _
                (tasks_ok_copy_files (log w) root output_folder files))
      as (w1 & lg1 & Hg & Hlog1 & Hall).
    { apply (Hfuel root files). now left. }
    rewrite Hg.
    destruct (IH w1) as (w2 & lg2 & Hr & Hlog2 & Hrest).
    { intros r f Hin. apply (Hfuel r f). now right. }
    exists w2, (lg1 ++ lg2). repeat split.
    + exact Hr.
    + now rewrite Hlog2, Hlog1, app_assoc.
    + intros r f file [[= <- <-]|Hin] Hfile.
      * rewrite Hlog2. apply logged_app.
        rewrite Forall_forall in Hall. apply Hall.
        now apply (in_map (fun file => root // file)).
      * now apply (Hrest r f).
Qed.

(** C8. Whatever the file operations do, and so whichever of them fail:
    [copy_file] writes one record to the log and returns, the record
    reporting an exception of an operation when one has failed; awaited on
    its own it never raises; and [read_folder], the tasks of a directory
    taking their steps in any order, returns with a record in the log for
    every file of every directory: no copy halts another. *)
Theorem copy_failures_isolated :
  (forall source_path destination_folder,
     copies_or_reports source_path copy_file_steps []
       (copy_file source_path destination_folder)) /\
  (forall source_path destination_folder (w : world),
     exists fs' r,
       run (copy_file source_path destination_folder) w =
         (Returns tt, {| fs := fs'; log := log w ++ [r] |}) /\
       about source_path r) /\
  (forall fuel sched walk output_folder (w : world),
     (forall root files,
        In (root, files) walk -> (copy_file_steps * length files <= fuel)%nat) ->
     exists w',
       read_folder fuel sched walk output_folder w = Some (Returns tt, w') /\
       forall root files file,
         In (root, files) walk -> In file files ->
         logged (log w') (root // file)).
Proof.
  split; [|split].
  - apply copy_file_copies_or_reports.
  - intros source_path destination_folder w.
    eapply run_copies_or_reports. apply copy_file_copies_or_reports.
  - intros fuel sched walk output_folder w Hfuel.
    destruct (read_folder_returns fuel sched walk output_folder w Hfuel)
      as (w' & _ & Hr & _ & Hall).
    exists w'. now split.
Qed.

End RunFacts.

(** The example: [ghost.txt] cannot be opened, which is reported, and the
    other two files are copied. *)
Example read_folder_example :
  option_map (fun r => (fst r, log (snd r)))
    (read_folder _ SimpleFs.perform 24 SimpleFs.example_sched
       SimpleFs.example_walk [py "out"]
       (SimpleFs.start SimpleFs.example_files)) =
  Some (Returns tt,
        [Error_copying [py "src"; py "ghost.txt"] SimpleFs.no_such_file;
         Info_copied [py "src"; py "b"] [py "out"; py "no_extension"; py "b"];
         Info_copied [py "src"; py "a.txt"] [py "out"; py "txt"; py "a.txt"]]).
Proof. vm_compute. reflexivity. Qed.

Lemma copy_failures_isolated_witness :
  (forall root files,
     In (root, files) SimpleFs.example_walk ->
     (copy_file_steps * length files <= 24)%nat) /\
  exists w',
    read_folder _ SimpleFs.perform 24 SimpleFs.example_sched
      SimpleFs.example_walk [py "out"]
      (SimpleFs.start SimpleFs.example_files) = Some (Returns tt, w') /\
    forall root files file,
      In (root, files) SimpleFs.example_walk -> In file files ->
      logged (log w') (root // file).
Proof.
  assert (H : forall root files,
             In (root, files) SimpleFs.example_walk ->
             (copy_file_steps * length files <= 24)%nat).
  { intros root files [[= <- <-]|[]]. simpl. lia. }
  split; [exact H|].
  exact (proj2 (proj2 (copy_failures_isolated _ SimpleFs.perform))
           24%nat SimpleFs.example_sched SimpleFs.example_walk [py "out"]
           (SimpleFs.start SimpleFs.example_files) H).
Defined.

(** Without the [try] of [copy_file], the failure of one task is raised by
    [gather] and the other task is left where it is. *)
Example gather_raises_unguarded :
  option_map fst
    (gather _ SimpleFs.perform 24 (fun _ => 0%nat)
       [(perform (Open [py "src"; py "ghost.txt"] Rb) ;; Ret tt);
        copy_file [py "src"; py "b"] [py "out"]]
       (SimpleFs.start SimpleFs.example_files)) =
  Some (Raises SimpleFs.no_such_file).
Proof. vm_compute. reflexivity. Qed.

(** *** The destination of a file *)

Lemma rfind_from_spec c s i :
  0 <= i ->
  (rfind_from i c s = -1 /\ ~ In c s) \/
  (exists pre post,
     s = pre ++ c :: post /\ ~ In c post /\
     rfind_from i c s = i + Z.of_nat (length pre)).
Proof.
  revert i. induction s as [|x s IH]; intros i Hi; simpl.
  - left. tauto.
  - destruct (IH (i + 1) ltac:(lia)) as [[Hr Hnot]|(pre & post & -> & Hpost & Hr)];
      rewrite Hr.
    + simpl. destruct (N.eqb_spec x c) as [->|Hne].
      * right. exists [], s. simpl. repeat split; [assumption | lia].
      * left. split; [reflexivity|]. intros [?|?]; tauto.
    + destruct (Z.leb_spec 0 (i + 1 + Z.of_nat (length pre))); [|lia].
      right. exists (x :: pre), post. repeat split; [assumption|].
      simpl length. lia.
Qed.

Lemma skipn_length_app {A : Type} (l l' : list A) : skipn (length l) (l ++ l') = l'.
Proof. induction l; simpl; auto. Qed.

(** The suffix is empty, and the folder is [no_extension]; or the name is
    a stem, a dot and an extension without a dot, neither empty, and the
    folder is the extension. *)
Lemma suffix_cases p :
  (suffix p = py "" /\ extension p = py "no_extension") \/
  (exists stem ext,
     stem <> [] /\ ext <> [] /\ ~ In 46%N ext /\
     name p = stem ++ 46%N :: ext /\
     suffix p = 46%N :: ext /\ extension p = ext).
Proof.
  unfold extension, suffix, rfind.
  destruct (rfind_from_spec 46%N (name p) 0 ltac:(lia))
    as [[Hr _]|(pre & post & Hname & Hpost & Hr)]; rewrite Hr.
  - left. split; reflexivity.
  - rewrite Hname, length_app. simpl length. rewrite Z.add_0_l.
    destruct (Z.ltb_spec 0 (Z.of_nat (length pre))); cbn [andb];
      [|left; split; reflexivity].
    destruct (Z.ltb_spec (Z.of_nat (length pre))
                (Z.of_nat (length pre + S (length post)) - 1));
      [|left; split; reflexivity].
    right. exists pre, post.
    rewrite Nat2Z.id, skipn_length_app. simpl.
    destruct pre as [|a pre]; [cbn [length] in *; lia|].
    destruct post as [|b post]; [cbn [length] in *; lia|].
    repeat split; try assumption; discriminate.
Qed.

(** The folder is one component: [/] appends it. *)
Lemma joinpath_extension destination_folder p :
  destination_folder // extension p = destination_folder ++ [extension p].
Proof.
  unfold joinpath.
  destruct (suffix_cases p) as [[_ ->]|(stem & ext & _ & Hext & Hdot & _ & _ & ->)].
  - reflexivity.
  - destruct (str_eqb_spec ext (py "")) as [->|_];
      [exfalso; now apply Hext|].
    destruct (str_eqb_spec ext (py ".")) as [->|_]; [|reflexivity].
    exfalso. apply Hdot. now left.
Qed.

Lemma joinpath_entry p file :
  is_entry_name file = true -> p // file = p ++ [file].
Proof.
  unfold is_entry_name, joinpath. rewrite !andb_true_iff, !negb_true_iff.
  intros [[[-> ->] _] _]. reflexivity.
Qed.

Lemma name_snoc p file : name (p ++ [file]) = file.
Proof. unfold name. apply last_last. Qed.

Lemma parent_snoc p file : parent (p ++ [file]) = p.
Proof. unfold parent. apply removelast_last. Qed.

Lemma destination_path_entry root file destination_folder :
  is_entry_name file = true ->
  destination_path (root // file) destination_folder =
  destination_folder ++ [extension (root // file)] ++ [file].
Proof.
  intros Hfile. unfold destination_path.
  rewrite joinpath_extension.
  rewrite (joinpath_entry root file Hfile), name_snoc.
  rewrite (joinpath_entry _ file Hfile). now rewrite <- app_assoc.
Qed.

(** *** Copies on the small file system *)

Lemma content_store_same fl p b :
  SimpleFs.content (SimpleFs.store fl p b) p = Some b.
Proof.
  induction fl as [|[q b'] fl IH]; simpl.
  - destruct (Path_eq_dec p p); congruence.
  - destruct (Path_eq_dec q p) as [->|Hne]; simpl.
    + destruct (Path_eq_dec p p); congruence.
    + destruct (Path_eq_dec q p); congruence.
Qed.

Lemma content_store_other fl p q b :
  p <> q -> SimpleFs.content (SimpleFs.store fl p b) q = SimpleFs.content fl q.
Proof.
  intros Hpq. induction fl as [|[r b'] fl IH]; simpl.
  - destruct (Path_eq_dec p q); congruence.
  - destruct (Path_eq_dec r p) as [->|Hne]; simpl.
    + destruct (Path_eq_dec p q); congruence.
    + destruct (Path_eq_dec r q); congruence.
Qed.

(** A file that is there is copied: its content is at the destination
    path afterwards, and the log says so. *)
Lemma copy_file_copies fl source_path destination_folder data :
  SimpleFs.content fl source_path = Some data ->
  destination_path source_path destination_folder <> source_path ->
  exists fl',
    run _ SimpleFs.perform (copy_file source_path destination_folder)
      (SimpleFs.start fl) =
      (Returns tt,
       {| fs := {| SimpleFs.files := fl';
                   SimpleFs.opened :=
                     [source_path;
                      destination_path source_path destination_folder] |};
          log := [Info_copied source_path
                    (destination_path source_path destination_folder)] |}) /\
    SimpleFs.content fl' (destination_path source_path destination_folder)
      = Some data.
Proof.
  intros Hsrc Hne.
  unfold copy_file, async_with_open, perform, logger, SimpleFs.start.
  cbn -[SimpleFs.content SimpleFs.store destination_path]. rewrite Hsrc.
  cbn -[SimpleFs.content SimpleFs.store destination_path].
  rewrite content_store_other, Hsrc by assumption.
  cbn -[SimpleFs.content SimpleFs.store destination_path].
  eexists. split; [reflexivity|]. apply content_store_same.
Qed.

(** C9. A file [file] of a directory [root] is copied to a path that keeps
    the name [file], in a folder right under the destination folder. The
    folder is [no_extension] when the suffix of the name is empty; else the
    suffix is a dot and the name of the folder. The content of the file is
    at that path after [copy_file], on the small file system. *)
Theorem destination_by_extension (root destination_folder : Path) (file : str) :
  is_entry_name file = true ->
  let source_path := root // file in
  let destination := destination_path source_path destination_folder in
  name destination = file /\
  parent (parent destination) = destination_folder /\
  (suffix source_path = py "" ->
   name (parent destination) = py "no_extension") /\
  (suffix source_path <> py "" ->
   suffix source_path = 46%N :: name (parent destination)) /\
  (forall fl data,
     SimpleFs.content fl source_path = Some data ->
     destination <> source_path ->
     exists fl',
       run _ SimpleFs.perform (copy_file source_path destination_folder)
         (SimpleFs.start fl) =
         (Returns tt,
          {| fs := {| SimpleFs.files := fl';
                      SimpleFs.opened := [source_path; destination] |};
             log := [Info_copied source_path destination] |}) /\
       SimpleFs.content fl' destination = Some data).
Proof.
  intros Hfile. cbv zeta.
  rewrite (destination_path_entry root file destination_folder Hfile).
  rewrite app_assoc, name_snoc, !parent_snoc, name_snoc.
  split; [reflexivity|]. split; [reflexivity|].
  rewrite <- app_assoc, <- (destination_path_entry root file destination_folder Hfile).
  destruct (suffix_cases (root // file))
    as [[Hs He]|(stem & ext & _ & _ & _ & _ & Hs & He)];
    rewrite Hs, He.
  - split; [reflexivity|]. split; [congruence|].
    intros fl data. apply copy_file_copies.
  - split; [discriminate|]. split; [reflexivity|].
    intros fl data. apply copy_file_copies.
Qed.

Lemma destination_by_extension_witness :
  is_entry_name (py "a.txt") = true /\
  name (destination_path ([py "src"] // py "a.txt") [py "out"]) = py "a.txt" /\
  parent (parent (destination_path ([py "src"] // py "a.txt") [py "out"]))
    = [py "out"].
Proof.
  assert (H : is_entry_name (py "a.txt") = true) by reflexivity.
  split; [exact H|].
  destruct (destination_by_extension [py "src"] [py "out"] (py "a.txt") H)
    as (Hname & Hparent & _).
  split; [exact Hname | exact Hparent].
Defined.

(** The folder of some names: the last of several suffixes counts; a name
    that begins with its only dot, or ends with a dot, has no extension. *)
Example destination_examples :
  destination_path [py "src"; py "archive.tar.gz"] [py "out"]
    = [py "out"; py "gz"; py "archive.tar.gz"] /\
  destination_path [py "src"; py ".bashrc"] [py "out"]
    = [py "out"; py "no_extension"; py ".bashrc"] /\
  destination_path [py "src"; py "notes."] [py "out"]
    = [py "out"; py "no_extension"; py "notes."] /\
  destination_path [py "src"; py "README"] [py "out"]
    = [py "out"; py "no_extension"; py "README"].
Proof. repeat split. Qed.

End FileSorterFacts.

(** ** More about the word counter *)

Module WordFrequencyMore.

Import Dict WordFrequency PyStrFacts DictFacts WordFrequencyFacts.

(** *** The Shuffler and the Reducer on any pairs *)

Lemma values_of_snoc key mapped_values k v :
  values_of key (mapped_values ++ [(k, v)]) =
  values_of key mapped_values ++ (if str_eqb k key then [v] else []).
Proof.
  unfold values_of. rewrite filter_app, map_app. simpl.
  now destruct (str_eqb k key).
Qed.

Lemma values_of_absent key mapped_values :
  ~ In key (map fst mapped_values) -> values_of key mapped_values = [].
Proof.
  unfold values_of. induction mapped_values as [|[k v] m IH]; simpl; intros H.
  - reflexivity.
  - destruct (str_eqb_spec k key) as [->|Hne]; [tauto|]. apply IH. tauto.
Qed.

Lemma keys_shuffle_any mapped_values :
  keys (shuffle_function mapped_values) =
  first_occurrences (map fst mapped_values).
Proof.
  induction mapped_values as [|[k v] m IH] using rev_ind; [reflexivity|].
  rewrite shuffle_function_snoc, keys_append_to_group, IH, map_app.
  cbn [map fst]. rewrite first_occurrences_snoc.
  destruct (str_in_spec k (first_occurrences (map fst m))) as [Hin|Hnotin];
    rewrite In_first_occurrences in *;
    destruct (str_in_spec k (map fst m)); tauto.
Qed.

Lemma get_shuffle_any mapped_values key :
  get (shuffle_function mapped_values) key =
  if str_in key (map fst mapped_values)
  then Some (values_of key mapped_values)
  else None.
Proof.
  induction mapped_values as [|[k v] m IH] using rev_ind; [reflexivity|].
  rewrite shuffle_function_snoc, values_of_snoc, map_app. cbn [map fst].
  destruct (str_eqb_spec k key) as [->|Hne].
  - rewrite get_append_to_group_same, IH.
    replace (str_in key (map fst m ++ [key])) with true
      by (symmetry; apply str_in_In, in_or_app; right; now left).
    destruct (str_in_spec key (map fst m)) as [Hin|Hnotin]; [reflexivity|].
    now rewrite values_of_absent.
  - rewrite get_append_to_group_other by congruence.
    rewrite IH, app_nil_r.
    destruct (str_in_spec key (map fst m)) as [Hin|Hnotin];
      destruct (str_in_spec key (map fst m ++ [k])) as [Hin'|Hnotin'];
      try reflexivity.
    + exfalso. apply Hnotin'. apply in_or_app. now left.
    + exfalso. apply in_app_or in Hin'. destruct Hin' as [?|[?|[]]];
        [tauto | congruence].
Qed.

(** X1. The Shuffler on any pairs, whatever their counts: it makes one
    group for each distinct key, in the order in which the keys first
    occur, and the group of a key holds the counts paired with the key, all
    of them and in their order; a key that does not occur has no group. *)
Theorem shuffle_keeps_every_count (mapped_values : list (str * Z)) (key : str) :
  NoDup (keys (shuffle_function mapped_values)) /\
  keys (shuffle_function mapped_values) =
    first_occurrences (map fst mapped_values) /\
  get (shuffle_function mapped_values) key =
    (if str_in key (map fst mapped_values)
     then Some (values_of key mapped_values)
     else None).
Proof.
  split; [apply NoDup_keys_shuffle|].
  split; [apply keys_shuffle_any | apply get_shuffle_any].
Qed.

Lemma get_map_reduce_function shuffled key :
  get (map reduce_function shuffled) key = option_map sum (get shuffled key).
Proof.
  induction shuffled as [|[k vs] rest IH]; simpl; [reflexivity|].
  now destruct (str_eqb k key).
Qed.

(** X2. Reducing after shuffling, on any pairs: the total of a key is the
    sum of the counts paired with it, a key that does not occur has no
    total, and the totals add up to the sum of all the counts. *)
Theorem reduce_sums_each_key (mapped_values : list (str * Z)) (key : str) :
  let reduced :=
    of_items (map reduce_function (shuffle_function mapped_values)) in
  get reduced key =
    (if str_in key (map fst mapped_values)
     then Some (sum (values_of key mapped_values))
     else None) /\
  sum (values reduced) = sum (map snd mapped_values).
Proof.
  cbv zeta. rewrite of_items_NoDup
    by (rewrite keys_map_reduce_function; apply NoDup_keys_shuffle).
  split.
  - rewrite get_map_reduce_function, get_shuffle_any.
    now destruct (str_in key (map fst mapped_values)).
  - rewrite sum_values_reduced. apply all_counts_shuffle.
Qed.

(** *** The result of the pipeline *)

(** X3. The result of [map_reduce] is the distinct words of the text, in
    the order in which they first occur, each with the number of its
    occurrences: a word of the text is found with a count of 1 or more, and
    any other word is not a key. *)
Theorem map_reduce_counts (unicode_lower : str -> str) (text w : str) :
  let words := normalized_words unicode_lower text in
  let result := map_reduce unicode_lower text in
  items result =
    map (fun w => (w, Z.of_nat (occurrences w words))) (first_occurrences words) /\
  NoDup (keys result) /\
  get result w =
    (if str_in w words then Some (Z.of_nat (occurrences w words)) else None) /\
  Forall (fun count => 1 <= count) (values result).
Proof.
  cbv zeta. unfold map_reduce, items.
  set (words := normalized_words unicode_lower text).
  split; [apply map_shuffle_reduce_counts|].
  split; [rewrite keys_map_shuffle_reduce; apply NoDup_first_occurrences|].
  split.
  - rewrite get_map_shuffle_reduce.
    destruct (str_in_spec w words) as [Hin|Hnotin].
    + apply occurrences_pos in Hin.
      destruct (occurrences w words); [lia | reflexivity].
    + destruct (occurrences w words) eqn:E; [reflexivity|].
      exfalso. apply Hnotin, occurrences_pos. lia.
  - rewrite map_shuffle_reduce_counts. unfold values. rewrite map_map.
    apply Forall_forall. intros n Hn. apply in_map_iff in Hn.
    destruct Hn as (x & <- & Hx). simpl.
    rewrite In_first_occurrences, <- occurrences_pos in Hx. lia.
Qed.

Lemma count_of_map_shuffle_reduce words w :
  count_of (map_shuffle_reduce words) w = Z.of_nat (occurrences w words).
Proof.
  unfold count_of. rewrite get_map_shuffle_reduce.
  now destruct (occurrences w words).
Qed.

(** X4. Counting composes: the count of a word in the words of two lists
    put together is the sum of its counts in each, a word that is no key
    counting for 0. *)
Theorem counts_add_up (words words' : list str) (w : str) :
  count_of (map_shuffle_reduce (words ++ words')) w =
  count_of (map_shuffle_reduce words) w + count_of (map_shuffle_reduce words') w.
Proof.
  rewrite !count_of_map_shuffle_reduce. unfold occurrences.
  rewrite count_occ_app. lia.
Qed.

(** *** The words of a text *)

Lemma split_from_words s cur w :
  Forall (fun c => isspace c = false) cur ->
  In w (split_from cur s) ->
  w <> [] /\ Forall (fun c => isspace c = false) w.
Proof.
  revert cur. induction s as [|c s IH]; intros cur Hcur; simpl.
  - destruct cur as [|a cur]; [intros []|]. intros [<-|[]]. split.
    + intros H. apply (f_equal (@length N)) in H.
      rewrite length_rev in H. discriminate.
    + now apply Forall_rev.
  - destruct (isspace c) eqn:Hc.
    + destruct cur as [|a cur]; [now apply IH|].
      intros [<-|Hin]; [|now apply (IH [])]. split.
      * intros H. apply (f_equal (@length N)) in H.
        rewrite length_rev in H. discriminate.
      * now apply Forall_rev.
    + apply IH. now constructor.
Qed.

Lemma split_from_chars s cur w c :
  In w (split_from cur s) -> In c w -> In c cur \/ In c s.
Proof.
  revert cur. induction s as [|x s IH]; intros cur; simpl.
  - destruct cur as [|a cur]; [intros []|]. intros [<-|[]] Hc.
    left. now apply in_rev.
  - destruct (isspace x).
    + destruct cur as [|a cur].
      * intros Hw Hc. destruct (IH [] Hw Hc) as [[]|?]. tauto.
      * intros [<-|Hw] Hc; [left; now apply in_rev|].
        destruct (IH [] Hw Hc) as [[]|?]. tauto.
    + intros Hw Hc. destruct (IH (x :: cur) Hw Hc) as [[<-|?]|?]; tauto.
Qed.

(** A fact about every ASCII code point, checked on all 128. *)
Lemma ascii_table (P : N -> bool) :
  forallb (fun n => P (N.of_nat n)) (seq 0 128) = true ->
  forall c, is_ascii c = true -> P c = true.
Proof.
  intros H c Hc. rewrite forallb_forall in H.
  rewrite <- (N2Nat.id c). apply H. apply in_seq.
  unfold is_ascii in Hc. apply N.ltb_lt in Hc. lia.
Qed.

Lemma ascii_lower_ascii c : is_ascii c = true -> is_ascii (ascii_lower c) = true.
Proof.
  apply (ascii_table (fun c => is_ascii (ascii_lower c))).
  vm_compute. reflexivity.
Qed.

Lemma ascii_lower_not_upper c : is_upper (ascii_lower c) = false.
Proof.
  unfold is_upper, ascii_lower.
  destruct (N.leb_spec 65 c); destruct (N.leb_spec c 90); simpl;
    repeat match goal with
           | |- context [(?a <=? ?b)%N] => destruct (N.leb_spec a b)
           end; simpl; try reflexivity; lia.
Qed.

Lemma ascii_lower_idempotent c : ascii_lower (ascii_lower c) = ascii_lower c.
Proof.
  pose proof (ascii_lower_not_upper c) as H. unfold is_upper in H.
  unfold ascii_lower at 1. now rewrite H.
Qed.

Lemma is_punctuation_ascii_lower c :
  is_punctuation (ascii_lower c) = is_punctuation c.
Proof.
  destruct (is_ascii c) eqn:Hc.
  - apply Bool.eqb_prop. revert c Hc.
    apply (ascii_table
             (fun c => Bool.eqb (is_punctuation (ascii_lower c)) (is_punctuation c))).
    vm_compute. reflexivity.
  - unfold ascii_lower. unfold is_ascii in Hc. apply N.ltb_ge in Hc.
    destruct (N.leb_spec 65 c); destruct (N.leb_spec c 90); simpl;
      try reflexivity; lia.
Qed.

Lemma lower_ascii unicode_lower s :
  forallb is_ascii s = true -> lower unicode_lower s = map ascii_lower s.
Proof. intros H. unfold lower. now rewrite H. Qed.

Lemma remove_punctuation_ascii s :
  forallb is_ascii s = true -> forallb is_ascii (remove_punctuation s) = true.
Proof.
  rewrite !forallb_forall. intros H c Hc. apply H.
  unfold remove_punctuation in Hc. now apply filter_In in Hc.
Qed.

Lemma remove_punctuation_map_lower s :
  remove_punctuation (map ascii_lower s) = map ascii_lower (remove_punctuation s).
Proof.
  unfold remove_punctuation. induction s as [|c s IH]; [reflexivity|].
  cbn [map filter].
  change (existsb (N.eqb (ascii_lower c)) punctuation)
    with (is_punctuation (ascii_lower c)).
  change (existsb (N.eqb c) punctuation) with (is_punctuation c).
  rewrite is_punctuation_ascii_lower.
  destruct (is_punctuation c); cbn [negb map]; now rewrite IH.
Qed.

Lemma map_ascii_lower_ascii s :
  forallb is_ascii s = true -> forallb is_ascii (map ascii_lower s) = true.
Proof.
  rewrite !forallb_forall. intros H c Hc. apply in_map_iff in Hc.
  destruct Hc as (x & <- & Hx). apply ascii_lower_ascii. now apply H.
Qed.

(** X5. Every word the normalisation leaves is a token: not empty, without
    white space, and no stop word; and for a text in ASCII it is in ASCII,
    without punctuation and without an upper-case letter. *)
Theorem words_are_tokens (unicode_lower : str -> str) (text w : str) :
  In w (normalized_words unicode_lower text) ->
  w <> [] /\
  Forall (fun c => isspace c = false) w /\
  ~ In w articles /\
  (forallb is_ascii text = true ->
   Forall (fun c => is_ascii c = true /\ is_punctuation c = false /\
                    is_upper c = false) w).
Proof.
  intros Hw. pose proof (normalized_words_not_article _ _ _ Hw) as Hart.
  unfold normalized_words in Hw. apply filter_In in Hw. destruct Hw as [Hw _].
  unfold split in Hw.
  destruct (split_from_words _ [] w (Forall_nil _) Hw) as [Hne Hsp].
  repeat split; try assumption.
  intros Hascii. apply Forall_forall. intros c Hc.
  destruct (split_from_chars _ _ _ c Hw Hc) as [[]|Hin].
  rewrite lower_ascii in Hin by now apply remove_punctuation_ascii.
  apply in_map_iff in Hin. destruct Hin as (x & <- & Hx).
  unfold remove_punctuation in Hx. apply filter_In in Hx.
  destruct Hx as [Hx Hpunct]. rewrite forallb_forall in Hascii.
  repeat split.
  - apply ascii_lower_ascii. now apply Hascii.
  - rewrite is_punctuation_ascii_lower. unfold is_punctuation.
    now apply negb_true_iff.
  - apply ascii_lower_not_upper.
Qed.

Lemma words_are_tokens_witness :
  In (py "cat") (normalized_words (fun s => s) (py "The CAT, sat!")) /\
  py "cat" <> [] /\
  Forall (fun c => isspace c = false) (py "cat") /\
  ~ In (py "cat") articles.
Proof.
  assert (H : In (py "cat") (normalized_words (fun s => s) (py "The CAT, sat!")))
    by (left; reflexivity).
  split; [exact H|].
  destruct (words_are_tokens (fun s => s) (py "The CAT, sat!") (py "cat") H)
    as (H1 & H2 & H3 & _).
  repeat split; assumption.
Defined.

Lemma remove_punctuation_insert u v p :
  In p punctuation ->
  remove_punctuation (u ++ p :: v) = remove_punctuation (u ++ v).
Proof.
  intros Hp. unfold remove_punctuation. rewrite !filter_app. cbn [filter].
  replace (existsb (N.eqb p) punctuation) with true; [reflexivity|].
  symmetry. apply existsb_exists. exists p. split; [assumption|].
  apply N.eqb_refl.
Qed.

(** X6. Punctuation does not separate words: a punctuation mark put
    anywhere into a text changes nothing in the result, so the two parts of
    a word with a hyphen or an apostrophe count as one word. *)
Theorem punctuation_is_ignored (unicode_lower : str -> str) (u v : str) (p : N) :
  In p punctuation ->
  map_reduce unicode_lower (u ++ p :: v) = map_reduce unicode_lower (u ++ v).
Proof.
  intros Hp. unfold map_reduce, normalized_words.
  now rewrite remove_punctuation_insert.
Qed.

Lemma punctuation_is_ignored_witness :
  In 45%N punctuation /\
  map_reduce (fun s => s) (py "well-known") = map_reduce (fun s => s) (py "wellknown").
Proof.
  assert (H : In 45%N punctuation) by (simpl; tauto).
  split; [exact H|].
  exact (punctuation_is_ignored (fun s => s) (py "well") (py "known") 45%N H).
Defined.

Lemma normalized_words_map_lower unicode_lower text :
  forallb is_ascii text = true ->
  normalized_words unicode_lower (map ascii_lower text) =
  normalized_words unicode_lower text.
Proof.
  intros H. unfold normalized_words.
  rewrite remove_punctuation_map_lower.
  rewrite !lower_ascii;
    try (apply map_ascii_lower_ascii); try now apply remove_punctuation_ascii.
  rewrite map_map.
  now rewrite (map_ext _ _ ascii_lower_idempotent).
Qed.

(** X7. The case of ASCII letters does not matter: two texts in ASCII that
    differ only in the case of their letters have the same result. *)
Theorem case_is_ignored (unicode_lower : str -> str) (text text' : str) :
  forallb is_ascii text = true ->
  forallb is_ascii text' = true ->
  map ascii_lower text = map ascii_lower text' ->
  map_reduce unicode_lower text = map_reduce unicode_lower text'.
Proof.
  intros H H' Heq. unfold map_reduce.
  rewrite <- (normalized_words_map_lower unicode_lower text H).
  rewrite <- (normalized_words_map_lower unicode_lower text' H').
  now rewrite Heq.
Qed.

Lemma case_is_ignored_witness :
  forallb is_ascii (py "The CAT sat") = true /\
  forallb is_ascii (py "the Cat SAT") = true /\
  map ascii_lower (py "The CAT sat") = map ascii_lower (py "the Cat SAT") /\
  map_reduce (fun s => s) (py "The CAT sat") =
  map_reduce (fun s => s) (py "the Cat SAT").
Proof.
  split; [reflexivity|]. split; [reflexivity|]. split; [reflexivity|].
  apply (case_is_ignored (fun s => s) (py "The CAT sat") (py "the Cat SAT"));
    reflexivity.
Defined.

(** *** The selection, for any [top_n] *)

Lemma slice_to_firstn {A : Type} (l : list A) (stop : Z) :
  slice_to l stop = firstn (selected_count (length l) stop) l.
Proof.
  unfold slice_to, selected_count.
  destruct (Z.ltb_spec stop 0); f_equal; lia.
Qed.

Lemma sorted_words_firstn result top_n :
  sorted_words result top_n =
  firstn (selected_count (length result) top_n) (sorted_by_count (items result)).
Proof.
  unfold sorted_words. rewrite slice_to_firstn.
  now rewrite (Permutation_length (sorted_by_count_perm (items result))).
Qed.

Lemma length_sorted_words result top_n :
  length (sorted_words result top_n) = selected_count (length result) top_n.
Proof.
  rewrite sorted_words_firstn, length_firstn.
  rewrite (Permutation_length (sorted_by_count_perm (items result))).
  unfold items, selected_count. destruct (top_n <? 0); lia.
Qed.

Lemma selected_count_0 size top_n :
  selected_count size top_n = 0%nat <->
  size = 0%nat \/ top_n = 0 \/ top_n <= - Z.of_nat size.
Proof.
  unfold selected_count. destruct (Z.ltb_spec top_n 0); lia.
Qed.

Lemma visualize_raises_nil result top_n :
  visualize_top_words result top_n = Raises ValueError <->
  sorted_words result top_n = [].
Proof.
  unfold visualize_top_words.
  destruct (sorted_words result top_n) as [|x l]; simpl; split;
    (reflexivity || discriminate).
Qed.


Lemma descending_app_l l1 l2 : descending (l1 ++ l2) -> descending l1.
Proof.
  unfold descending. induction l1 as [|a l1 IH]; simpl; intros H.
  - constructor.
  - apply StronglySorted_inv in H. destruct H as [Hs Ha].
    constructor; [now apply IH|].
    apply Forall_app in Ha. tauto.
Qed.

Lemma descending_app_le l1 l2 a b :
  descending (l1 ++ l2) -> In a l1 -> In b l2 -> snd b <= snd a.
Proof.
  unfold descending. induction l1 as [|x l1 IH]; simpl; intros H Ha Hb.
  - destruct Ha.
  - apply StronglySorted_inv in H. destruct H as [Hs Hx].
    destruct Ha as [->|Ha]; [|now apply IH].
    rewrite Forall_forall in Hx. apply Hx. apply in_or_app. now right.
Qed.

Lemma combine_fst_snd {A B : Type} (l : list (A * B)) :
  combine (map fst l) (map snd l) = l.
Proof. induction l as [|[a b] l IH]; simpl; congruence. Qed.

Lemma descending_map_snd l :
  descending l -> StronglySorted (fun a b => b <= a) (map snd l).
Proof.
  unfold descending. induction 1 as [|a l Hs IH Ha]; simpl; constructor.
  - exact IH.
  - rewrite Forall_forall in *. intros b Hb. apply in_map_iff in Hb.
    destruct Hb as (x & <- & Hx). now apply Ha.
Qed.

(** X9. The chart [visualize_top_words] draws, for any [top_n]. Its bars
    are items of the result, words with their counts, in descending order
    of count; there are [top_n] of them, or all when the result has fewer,
    or all but the last [-top_n] for a negative [top_n]; an item without a
    bar has no larger count than any bar; and the words of the bars are
    distinct when the keys of the result are. *)
Theorem chart_shows_top_words (result : dict Z) (top_n : Z) (shown : chart) :
  visualize_top_words result top_n = Returns shown ->
  let bars := combine (bar_words shown) (bar_frequencies shown) in
  length (bar_words shown) = selected_count (length result) top_n /\
  length (bar_frequencies shown) = selected_count (length result) top_n /\
  (1 <= selected_count (length result) top_n)%nat /\
  incl bars (items result) /\
  StronglySorted (fun a b => b <= a) (bar_frequencies shown) /\
  (forall item bar,
     In item (items result) -> ~ In item bars -> In bar bars ->
     snd item <= snd bar) /\
  (NoDup (keys result) -> NoDup (bar_words shown)) /\
  title_top_n shown = top_n.
Proof.
  unfold visualize_top_words. intros H.
  pose proof (length_sorted_words result top_n) as Hlen.
  pose proof (sorted_words_firstn result top_n) as Hfirst.
  pose proof (sorted_by_count_perm (items result)) as Hperm.
  pose proof (sorted_by_count_descending (items result)) as Hdesc.
  rewrite <- (firstn_skipn (selected_count (length result) top_n)
                (sorted_by_count (items result))) in Hperm, Hdesc.
  rewrite <- Hfirst in Hperm, Hdesc. clear Hfirst.
  destruct (sorted_words result top_n) as [|x l] eqn:E; [discriminate|].
  cbn [unzip_pairs] in H. injection H as <-. cbv zeta.
  cbn [bar_words bar_frequencies title_top_n].
  change (fst x :: map fst l) with (map fst (x :: l)).
  change (snd x :: map snd l) with (map snd (x :: l)).
  assert (Hpos : (1 <= length (x :: l))%nat) by (simpl; lia).
  revert Hlen Hperm Hdesc Hpos. generalize (x :: l). clear E x l.
  intros sel Hlen Hperm Hdesc Hpos.
  rewrite combine_fst_snd, !length_map.
  repeat split; try assumption.
  - now rewrite <- Hlen.
  - intros item Hitem. apply (Permutation_in _ Hperm).
    apply in_or_app. now left.
  - apply descending_map_snd. eapply descending_app_l. exact Hdesc.
  - intros item bar Hitem Hnot Hbar.
    apply (Permutation_in _ (Permutation_sym Hperm)) in Hitem.
    apply in_app_or in Hitem. destruct Hitem as [?|Hitem]; [tauto|].
    eapply descending_app_le; eassumption.
  - intros Hnd. unfold keys, items in *.
    apply (Permutation_map fst) in Hperm.
    apply (Permutation_NoDup (Permutation_sym Hperm)) in Hnd.
    rewrite map_app in Hnd. now apply NoDup_app_remove_r in Hnd.
Qed.

Lemma chart_shows_top_words_witness :
  visualize_top_words cat_result (-1) =
    Returns {| bar_words := [py "cat"; py "sat"; py "mat"];
               bar_frequencies := [3; 1; 1];
               title_top_n := -1 |} /\
  length [py "cat"; py "sat"; py "mat"] = selected_count (length cat_result) (-1).
Proof.
  assert (H : visualize_top_words cat_result (-1) =
              Returns {| bar_words := [py "cat"; py "sat"; py "mat"];
                         bar_frequencies := [3; 1; 1];
                         title_top_n := -1 |}) by reflexivity.
  split; [exact H|].
  exact (proj1 (chart_shows_top_words cat_result (-1) _ H)).
Defined.

(** *** The order [sorted] gives is the only one *)

Lemma with_count_In c l x : In x (with_count c l) <-> In x l /\ snd x = c.
Proof. unfold with_count. rewrite filter_In, Z.eqb_eq. tauto. Qed.

Lemma with_count_cons c x l :
  with_count c (x :: l) =
  if snd x =? c then x :: with_count c l else with_count c l.
Proof. reflexivity. Qed.

Lemma descending_unique l1 l2 :
  descending l1 -> descending l2 ->
  (forall c, with_count c l1 = with_count c l2) ->
  l1 = l2.
Proof.
  revert l2. induction l1 as [|a l1 IH]; intros l2 H1 H2 Heq.
  - destruct l2 as [|b l2]; [reflexivity|].
    specialize (Heq (snd b)). rewrite with_count_cons, Z.eqb_refl in Heq.
    discriminate.
  - destruct l2 as [|b l2].
    + specialize (Heq (snd a)). rewrite with_count_cons, Z.eqb_refl in Heq.
      discriminate.
    + assert (Hab : snd a = snd b).
      { assert (Ha : In a (with_count (snd a) (b :: l2)))
          by (rewrite <- Heq, with_count_cons, Z.eqb_refl; now left).
        assert (Hb : In b (with_count (snd b) (a :: l1)))
          by (rewrite Heq, with_count_cons, Z.eqb_refl; now left).
        apply with_count_In in Ha, Hb.
        pose proof (descending_head_max _ _ _ H2 (proj1 Ha)).
        pose proof (descending_head_max _ _ _ H1 (proj1 Hb)). lia. }
      pose proof (Heq (snd a)) as Hhead.
      rewrite !with_count_cons, Z.eqb_refl in Hhead.
      rewrite <- Hab, Z.eqb_refl in Hhead. injection Hhead as -> Htail.
      f_equal. unfold descending in H1, H2.
      apply StronglySorted_inv in H1, H2.
      apply IH; [tauto | tauto |].
      intros c. specialize (Heq c). rewrite !with_count_cons in Heq.
      destruct (snd b =? c); [now injection Heq | assumption].
Qed.

(** X10. The order of [sorted] is determined: a list in descending order
    of count that has, for each count, the items of that count in the same
    order as [items] is the list [sorted_by_count items]. So every stable
    sort gives this list, and a list already in descending order is left as
    it is. *)
Theorem sorted_by_count_unique (items l : list (str * Z)) :
  descending l ->
  (forall c, with_count c l = with_count c items) ->
  l = sorted_by_count items.
Proof.
  intros Hd Hc. apply descending_unique.
  - assumption.
  - apply sorted_by_count_descending.
  - intros c. now rewrite sorted_by_count_stable.
Qed.

Lemma sorted_by_count_unique_witness :
  descending cat_result /\
  (forall c, with_count c cat_result = with_count c cat_result) /\
  cat_result = sorted_by_count cat_result.
Proof.
  assert (H : descending cat_result).
  { unfold descending, cat_result.
    repeat (constructor; simpl; try lia). }
  split; [exact H|]. split; [reflexivity|].
  exact (sorted_by_count_unique cat_result cat_result H (fun c => eq_refl)).
Defined.

(** *** Fetching the text, and the script *)

Lemma get_text_cases
  (requests_get : str -> outcome request_exception response) (u : str) :
  get_text requests_get u =
  match requests_get u with
  | Raises e => (None, [Fetch_error e])
  | Returns r =>
      if (400 <=? status_code r) && (status_code r <? 600)
      then (None, [Fetch_error (HTTPError (status_code r))])
      else (Some (response_text r), [])
  end.
Proof.
  unfold get_text, raise_for_status.
  destruct (requests_get u) as [r|e]; [|reflexivity].
  now destruct ((400 <=? status_code r) && (status_code r <? 600)).
Qed.

Lemma error_status_spec (status : Z) :
  reflect (400 <= status < 600) ((400 <=? status) && (status <? 600)).
Proof.
  destruct (400 <=? status) eqn:E1; destruct (status <? 600) eqn:E2;
    constructor; lia.
Qed.


Lemma map_reduce_nil_iff unicode_lower text :
  map_reduce unicode_lower text = [] <->
  normalized_words unicode_lower text = [].
Proof.
  unfold map_reduce. split.
  - intros H.
    pose proof (keys_map_shuffle_reduce (normalized_words unicode_lower text)) as Hk.
    rewrite H in Hk.
    destruct (normalized_words unicode_lower text); [reflexivity | discriminate].
  - intros ->. reflexivity.
Qed.

Lemma visualize_10_raises_iff unicode_lower text :
  visualize_top_words (map_reduce unicode_lower text) 10 = Raises ValueError <->
  normalized_words unicode_lower text = [].
Proof.
  rewrite visualize_raises_nil, <- length_zero_iff_nil, length_sorted_words.
  rewrite selected_count_0, length_zero_iff_nil, <- map_reduce_nil_iff.
  split; [|tauto]. intros [H|[H|H]]; [assumption | discriminate | lia].
Qed.

(** X12. The script. It raises, the [ValueError] of the unpacking, exactly
    when the text is fetched and is not empty but has no word left, as a
    text of stop words and punctuation. It prints that the fetch failed,
    and shows no chart, exactly when the request raises, or answers with a
    status from 400 to 599, or with an empty body. *)
Theorem script_outcomes
  (requests_get : str -> outcome request_exception response)
  (unicode_lower : str -> str) :
  (script requests_get unicode_lower = Raises ValueError <->
   exists r,
     requests_get url = Returns r /\ ~ (400 <= status_code r < 600) /\
     response_text r <> [] /\
     normalized_words unicode_lower (response_text r) = []) /\
  ((exists lines, script requests_get unicode_lower = Returns (lines, None)) <->
   (exists e, requests_get url = Raises e) \/
   (exists r,
      requests_get url = Returns r /\
      (400 <= status_code r < 600 \/ response_text r = []))).
Proof.
  unfold script. rewrite get_text_cases.
  destruct (requests_get url) as [r|e] eqn:Hr.
  2: { split; split.
       - discriminate.
       - intros (r & Hr' & _). discriminate.
       - intros _. left. now exists e.
       - intros _. eexists. reflexivity. }
  destruct (error_status_spec (status_code r)) as [Hstatus|Hstatus].
  - split; split.
    + discriminate.
    + intros (r' & [= <-] & Hs & _). tauto.
    + intros _. right. exists r. tauto.
    + intros _. eexists. reflexivity.
  - destruct (response_text r) as [|c t] eqn:Htext.
    + split; split.
      * discriminate.
      * intros (r' & [= <-] & _ & Hne & _). congruence.
      * intros _. right. exists r. tauto.
      * intros _. eexists. reflexivity.
    + pose proof (visualize_10_raises_iff unicode_lower (c :: t)) as Hv.
      destruct (visualize_top_words (map_reduce unicode_lower (c :: t)) 10)
        as [shown|[]]; split; split.
      * discriminate.
      * intros (r' & [= <-] & _ & _ & Hnil). rewrite Htext in Hnil.
        apply Hv in Hnil. discriminate.
      * intros [lines' H]. discriminate.
      * intros [[e He]|(r' & [= <-] & [Hs|Hnil])];
          [discriminate | tauto | congruence].
      * intros _. exists r. repeat split; try assumption; [congruence|].
        rewrite Htext. now apply Hv.
      * reflexivity.
      * intros [lines' H]. discriminate.
      * intros [[e He]|(r' & [= <-] & [Hs|Hnil])];
          [discriminate | tauto | congruence].
Qed.

(** A page of stop words makes the script raise; an empty page is taken
    for a failed fetch. *)
Example script_examples :
  script (fun _ => Returns {| status_code := 200;
                              response_text := py "The, and of... it!" |})
         (fun s => s) = Raises ValueError /\
  script (fun _ => Returns {| status_code := 200; response_text := py "" |})
         (fun s => s) = Returns ([Failed_to_fetch], None) /\
  script (fun _ => Returns {| status_code := 404; response_text := py "cat" |})
         (fun s => s) = Returns ([Fetch_error (HTTPError 404); Failed_to_fetch], None).
Proof. repeat split. Qed.

End WordFrequencyMore.

(** ** More about the file sorter *)

Module FileSorterMore.

Import FileSorter PyStrFacts FileSorterFacts.

Section TraceFacts.

Variable FS : Type.

Variable fs_perform : forall X : Type, fs_op X -> FS -> outcome exn X * FS.

Local Abbreviation trace := (trace FS fs_perform).
Local Abbreviation run := (run FS fs_perform).
Local Abbreviation gather := (gather FS fs_perform).
Local Abbreviation read_folder := (read_folder FS fs_perform).
Local Abbreviation step := (step FS fs_perform).
Local Abbreviation step_pending := (step_pending FS fs_perform).

(** The next operation of [copy_file], with each of its outcomes. *)
Ltac next_operation :=
  match goal with
  | |- context [fs_perform ?X ?op ?s] =>
      destruct (fs_perform X op s) as [[?|?] ?]; cbn -[destination_path]
  end.

Ltac all_runs_of_copy_file :=
  cbv zeta; unfold copy_file, async_with_open, perform, logger;
  cbn -[destination_path]; repeat next_operation.

Ltac split_cases :=
  repeat match goal with
         | H : _ \/ _ |- _ => destruct H as [H|H]
         | H : False |- _ => destruct H
         end.

(** [run] writes to the log the records of the trace. *)
Lemma run_log_trace {A : Type} (c : coro A) (w : world FS) :
  log (snd (run c w)) = log w ++ records (trace c (fs w)).
Proof.
  revert w. induction c as [a|e|X op k IH|r k IH]; intros w; simpl.
  - now rewrite app_nil_r.
  - now rewrite app_nil_r.
  - destruct (fs_perform X op (fs w)) as [r s']. cbn [records].
    rewrite IH. simpl.
    now destruct op; destruct r.
  - rewrite IH. simpl. now rewrite <- app_assoc.
Qed.

(** X13. [copy_file] closes the files it has opened, whatever fails: the
    files closed are the files opened, two at most, the last one opened
    closed first. *)
Theorem copy_file_closes_what_it_opens (source_path destination_folder : Path)
  (s : FS) :
  let t := trace (copy_file source_path destination_folder) s in
  closed_handles t = rev (opened_handles t) /\
  (length (opened_handles t) <= 2)%nat.
Proof.
  all_runs_of_copy_file; split; (reflexivity || (simpl; lia)).
Qed.

(** X14. The record [copy_file] writes is its last event and tells how the
    copy went: that the file is copied to its destination when no operation
    has raised, and else the exception raised last, which is the one that
    reaches the [except] clause. It is what [run] adds to the log. *)
Theorem copy_file_record_tells_outcome (source_path destination_folder : Path)
  (w : world FS) :
  let t := trace (copy_file source_path destination_folder) (fs w) in
  exists operations r,
    t = operations ++ [E_log r] /\
    records operations = [] /\
    r = match rev (raised_exceptions operations) with
        | [] => Info_copied source_path
                  (destination_path source_path destination_folder)
        | e :: _ => Error_copying source_path e
        end /\
    log (snd (run (copy_file source_path destination_folder) w)) = log w ++ [r].
Proof.
  cbv zeta. rewrite run_log_trace.
  generalize (fs w). intros s.
  all_runs_of_copy_file;
    match goal with
    | |- exists o r, ?l = _ /\ _ =>
        exists (removelast l); eexists; cbn -[destination_path];
        repeat split; reflexivity
    end.
Qed.

(** X15. What [copy_file] does to the file system, whatever fails. It
    first makes the folder of the destination, before it looks at the
    source. It opens no file but the source, for reading, and the
    destination, for writing, and the destination only when the source is
    open. It writes once at most: to the destination, and what it has read
    from the source. *)
Theorem copy_file_writes_what_it_read (source_path destination_folder : Path)
  (s : FS) :
  let destination := destination_path source_path destination_folder in
  let t := trace (copy_file source_path destination_folder) s in
  (exists r, hd_error t = Some (E_mkdir (parent destination) r)) /\
  (forall p m r,
     In (E_open p m r) t ->
     (p = source_path /\ m = Rb) \/
     (p = destination /\ m = Wb /\
      exists h, In (E_open source_path Rb (Returns h)) t)) /\
  (forall h data r,
     In (E_write h data r) t ->
     In (E_open destination Wb (Returns h)) t /\
     exists h', In (E_open source_path Rb (Returns h')) t /\
                In (E_read h' (Returns data)) t) /\
  (length (filter (fun e => match e with E_write _ _ _ => true | _ => false end) t)
   <= 1)%nat.
Proof.
  all_runs_of_copy_file;
    (split; [eexists; reflexivity|]);
    (split; [|split; [|simpl; lia]]).
  all: try (intros p m r Hin; simpl in Hin; split_cases;
            try discriminate; injection Hin as <- <- <-;
            first [ left; split; reflexivity
                  | right; split; [reflexivity|]; split; [reflexivity|];
                    eexists; simpl; eauto 20 ]).
  all: intros hh data rr Hin; simpl in Hin; split_cases;
    try discriminate; injection Hin as <- <- <-;
    (split; [simpl; tauto | eexists; split; simpl; eauto 20]).
Qed.

(** When the folder cannot be made, nothing else is tried. *)
Lemma copy_file_mkdir_fails source_path destination_folder s e s' :
  fs_perform _
    (Mkdir (parent (destination_path source_path destination_folder))) s
    = (Raises e, s') ->
  trace (copy_file source_path destination_folder) s =
  [E_mkdir (parent (destination_path source_path destination_folder)) (Raises e);
   E_log (Error_copying source_path e)].
Proof.
  intros H. unfold copy_file, async_with_open, perform, logger.
  cbn -[destination_path]. now rewrite H.
Qed.

(** *** The directories, one after the other *)

(** X16. [read_folder] on the directories of two lists put together is
    [read_folder] on the first list and then, from the world it leaves, on
    the second: no copy of a later directory begins before those of the
    earlier ones have ended. *)
Theorem read_folder_app (fuel : nat) (sched : nat -> nat -> nat)
  (walk walk' : list (Path * list str)) (output_folder : Path) (w : world FS) :
  read_folder fuel sched (walk ++ walk') output_folder w =
  match read_folder fuel (fun d => sched (d + length walk')%nat) walk
          output_folder w with
  | Some (Returns _, w1) => read_folder fuel sched walk' output_folder w1
  | Some (Raises e, w1) => Some (Raises e, w1)
  | None => None
  end.
Proof.
  revert w. induction walk as [|[root files] walk IH]; intros w.
  - reflexivity.
  - cbn [app FileSorter.read_folder]. rewrite length_app.
    destruct (gather fuel (sched (length walk + length walk')%nat) _ w)
      as [[[results|e] w1]|]; [apply IH | reflexivity | reflexivity].
Qed.

(** *** One record for each file *)

Lemma step_count p n raised c (w : world FS) :
  copies_or_reports p n raised c ->
  (length (log (snd (step c w))) + (if is_done (fst (step c w)) then 0 else 1)
   = S (length (log w)))%nat.
Proof.
  intros [m dst | m raised' e He | m raised' X op k Hx He]; simpl.
  - rewrite length_app. simpl. lia.
  - rewrite length_app. simpl. lia.
  - destruct (fs_perform X op (fs w)) as [[x|e] s']; simpl.
    + destruct (copies_or_reports_pending _ _ _ _ (Hx x)) as [-> _]. lia.
    + destruct (copies_or_reports_pending _ _ _ _ (He e)) as [-> _]. lia.
Qed.

Lemma step_pending_count (w : world FS) lg b ps cs k :
  tasks_ok lg b ps cs ->
  (k < pending_count cs)%nat ->
  (length (log (snd (step_pending k cs w)))
   + pending_count (fst (step_pending k cs w))
   = length (log w) + pending_count cs)%nat.
Proof.
  intros H. revert k.
  induction H as [|n m p c ps cs Hc Hcs IH]; intros k Hk.
  - unfold pending_count in Hk. simpl in Hk. lia.
  - rewrite pending_count_cons in Hk. cbn [FileSorter.step_pending].
    destruct Hc as [Hl|j raised c Hc].
    + cbn [is_done] in *. specialize (IH k Hk).
      destruct (step_pending k cs w) as [cs' w']. simpl in *.
      rewrite !pending_count_cons. simpl. lia.
    + pose proof (copies_or_reports_pending _ _ _ _ Hc) as [Hd _].
      pose proof (step_count _ _ _ _ w Hc) as Hstep.
      rewrite Hd in *. destruct k as [|k].
      * destruct (step c w) as [c' w']. simpl in *.
        rewrite !pending_count_cons, Hd. destruct (is_done c'); lia.
      * specialize (IH k ltac:(lia)).
        destruct (step_pending k cs w) as [cs' w']. simpl in *.
        rewrite !pending_count_cons, Hd. lia.
Qed.

(** [gather] of tasks that copy files, when it ends: it has not raised,
    and each task that was pending has written one record. *)
Lemma gather_count fuel sched (w : world FS) b ps cs r w' :
  tasks_ok (log w) b ps cs ->
  gather fuel sched cs w = Some (r, w') ->
  (exists res, r = Returns res) /\
  length (log w') = (length (log w) + pending_count cs)%nat.
Proof.
  revert w b cs. induction fuel as [|fuel IH]; intros w b cs Hok;
    cbn [FileSorter.gather]; rewrite (tasks_ok_not_raised _ _ _ _ Hok);
    destruct (pending_count cs) as [|m] eqn:Hp.
  - intros [= <- <-]. split; [eexists; reflexivity | lia].
  - discriminate.
  - intros [= <- <-]. split; [eexists; reflexivity | lia].
  - assert (Hk : (Nat.modulo (sched fuel) (S m) < pending_count cs)%nat)
      by (rewrite Hp; apply Nat.mod_upper_bound; lia).
    destruct (step_pending_ok FS fs_perform w b ps cs _ Hok Hk)
      as (b' & lg' & _ & Hlog & Hok').
    pose proof (step_pending_count w _ _ _ _ _ Hok Hk) as Hcount.
    destruct (step_pending (Nat.modulo (sched fuel) (S m)) cs w) as [cs1 w1].
    simpl in Hlog, Hok', Hcount. rewrite <- Hlog in Hok'.
    intros Hg. destruct (IH w1 b' cs1 Hok' Hg) as [Hres Hlen].
    split; [assumption | lia].
Qed.

Lemma pending_count_copy_files root output_folder files :
  pending_count (map (fun file => copy_file (root // file) output_folder) files)
  = length files.
Proof.
  induction files as [|file files IH]; [reflexivity|].
  cbn [map]. rewrite pending_count_cons, IH.
  destruct (copies_or_reports_pending _ _ _ _
              (copy_file_copies_or_reports (root // file) output_folder))
    as [-> _].
  reflexivity.
Qed.

(** X17. Whenever [read_folder] ends, in whatever order the tasks have
    taken their steps and whichever operations have failed, it has
    returned and not raised, and the log has grown by as many records as
    the directories have files. *)
Theorem read_folder_one_record_per_file (fuel : nat) (sched : nat -> nat -> nat)
  (walk : list (Path * list str)) (output_folder : Path) (w w' : world FS)
  (r : outcome exn unit) :
  read_folder fuel sched walk output_folder w = Some (r, w') ->
  r = Returns tt /\
  length (log w') = (length (log w) + file_count walk)%nat.
Proof.
  revert w. induction walk as [|[root files] walk IH]; intros w.
  - intros [= <- <-]. split; [reflexivity|]. unfold file_count. simpl. lia.
  - cbn [FileSorter.read_folder].
    destruct (gather fuel (sched (length walk)) _ w) as [[res w1]|] eqn:Hg;
      [|discriminate].
    destruct (gather_count _ _ _ _ _ _ _ _
                (tasks_ok_copy_files (log w) root output_folder files) Hg)
      as [[res' ->] Hlen].
    intros Hr. destruct (IH w1 Hr) as [-> Hlen'].
    split; [reflexivity|].
    rewrite pending_count_copy_files in Hlen.
    unfold file_count in *. simpl. lia.
Qed.

End TraceFacts.

Lemma read_folder_one_record_per_file_witness :
  exists r w',
    read_folder _ SimpleFs.perform 24 SimpleFs.example_sched
      SimpleFs.example_walk [py "out"]
      (SimpleFs.start SimpleFs.example_files) = Some (r, w') /\
    r = Returns tt /\
    length (log w') = 3%nat.
Proof.
  destruct (read_folder _ SimpleFs.perform 24 SimpleFs.example_sched
              SimpleFs.example_walk [py "out"]
              (SimpleFs.start SimpleFs.example_files))
    as [[r w']|] eqn:H.
  - exists r, w'. split; [reflexivity|].
    exact (read_folder_one_record_per_file _ SimpleFs.perform 24
             SimpleFs.example_sched SimpleFs.example_walk [py "out"]
             (SimpleFs.start SimpleFs.example_files) w' r H).
  - vm_compute in H. discriminate.
Defined.

(** *** Destinations *)

Lemma rfind_from_absent c s i : ~ In c s -> rfind_from i c s = -1.
Proof.
  revert i. induction s as [|x s IH]; intros i H; [reflexivity|].
  cbn [rfind_from]. rewrite IH by (intros Hin; apply H; now right).
  cbn [Z.leb Z.compare].
  destruct (N.eqb_spec x c) as [->|_]; [|reflexivity].
  exfalso. apply H. now left.
Qed.

Lemma rfind_from_last c pre post i :
  0 <= i -> ~ In c post ->
  rfind_from i c (pre ++ c :: post) = i + Z.of_nat (length pre).
Proof.
  revert i. induction pre as [|x pre IH]; intros i Hi Hpost; simpl.
  - rewrite rfind_from_absent by assumption. simpl.
    rewrite N.eqb_refl. lia.
  - rewrite IH by (assumption || lia).
    destruct (Z.leb_spec 0 (i + 1 + Z.of_nat (length pre))); lia.
Qed.

Lemma extension_snoc p nm :
  extension (p ++ [nm]) =
  match drop1 (let i := rfind 46 nm in
               if (0 <? i) && (i <? Z.of_nat (length nm) - 1)
               then skipn (Z.to_nat i) nm else py "") with
  | [] => py "no_extension"
  | c :: s => c :: s
  end.
Proof. unfold extension, suffix. now rewrite name_snoc. Qed.

(** X18. The folder of a file, by the shape of its name. A name that is a
    stem, a dot and an extension without a dot, neither empty, goes to the
    folder of that extension: the last of several extensions counts. A
    name without a dot, a name whose only dot is its first code point, and
    a name that ends with a dot go to [no_extension]. *)
Theorem extension_of_name (p : Path) :
  (forall stem ext,
     stem <> [] -> ext <> [] -> ~ In 46%N ext ->
     extension (p ++ [stem ++ 46%N :: ext]) = ext) /\
  (forall nm, ~ In 46%N nm -> extension (p ++ [nm]) = py "no_extension") /\
  (forall rest,
     ~ In 46%N rest -> extension (p ++ [46%N :: rest]) = py "no_extension") /\
  (forall stem, extension (p ++ [stem ++ [46%N]]) = py "no_extension").
Proof.
  repeat split.
  - intros stem ext Hstem Hext Hdot. rewrite extension_snoc. unfold rfind.
    rewrite rfind_from_last by (assumption || lia). cbv zeta.
    rewrite length_app. cbn [length].
    destruct stem as [|a stem]; [congruence|].
    destruct ext as [|b ext]; [congruence|].
    destruct (Z.ltb_spec 0 (0 + Z.of_nat (length (a :: stem))));
      [|cbn [length] in *; lia].
    destruct (Z.ltb_spec (0 + Z.of_nat (length (a :: stem)))
                (Z.of_nat (length (a :: stem) + S (length (b :: ext))) - 1));
      [|cbn [length] in *; lia].
    cbn [andb]. rewrite Z.add_0_l, Nat2Z.id, skipn_length_app. reflexivity.
  - intros nm Hdot. rewrite extension_snoc. unfold rfind.
    now rewrite rfind_from_absent.
  - intros rest Hdot. rewrite extension_snoc. unfold rfind.
    change (46%N :: rest) with ([] ++ 46%N :: rest).
    rewrite (rfind_from_last 46%N [] rest 0) by (assumption || lia).
    reflexivity.
  - intros stem. rewrite extension_snoc. unfold rfind.
    rewrite (rfind_from_last 46%N stem [] 0) by (simpl; tauto || lia).
    cbv zeta. rewrite length_app. cbn [length].
    destruct (Z.ltb_spec (0 + Z.of_nat (length stem))
                (Z.of_nat (length stem + 1) - 1)); [lia|].
    now rewrite andb_false_r.
Qed.

Lemma extension_same_name p q : name p = name q -> extension p = extension q.
Proof. intros H. unfold extension, suffix. now rewrite H. Qed.

(** X19. The destination of a file depends on its name alone, not on the
    directory it is in: files of the same name in different directories are
    copied to the same path, two folders below the destination folder, so
    that the one copied last replaces the other. *)
Theorem same_name_same_destination (root root' destination_folder : Path)
  (file : str) :
  is_entry_name file = true ->
  destination_path (root // file) destination_folder =
    destination_path (root' // file) destination_folder /\
  length (destination_path (root // file) destination_folder) =
    (length destination_folder + 2)%nat.
Proof.
  intros Hfile. rewrite !(destination_path_entry _ file _ Hfile).
  split.
  - do 2 f_equal. f_equal. apply extension_same_name.
    now rewrite !(joinpath_entry _ file Hfile), !name_snoc.
  - rewrite !length_app. simpl. lia.
Qed.

Lemma same_name_same_destination_witness :
  is_entry_name (py "a.txt") = true /\
  destination_path ([py "src"] // py "a.txt") [py "out"] =
  destination_path ([py "src"; py "old"] // py "a.txt") [py "out"].
Proof.
  assert (H : is_entry_name (py "a.txt") = true) by reflexivity.
  split; [exact H|].
  exact (proj1 (same_name_same_destination [py "src"] [py "src"; py "old"]
                  [py "out"] (py "a.txt") H)).
Defined.

(** X20. A file that is already at its destination: on the small file
    system, where opening a file for writing empties it as [open] does,
    [copy_file] leaves the file empty and reports it copied, the
    destination being opened for writing before the source is read. *)
Theorem copy_onto_itself_empties fl source_path destination_folder data :
  SimpleFs.content fl source_path = Some data ->
  destination_path source_path destination_folder = source_path ->
  exists fl',
    run _ SimpleFs.perform (copy_file source_path destination_folder)
      (SimpleFs.start fl) =
      (Returns tt,
       {| fs := {| SimpleFs.files := fl';
                   SimpleFs.opened := [source_path; source_path] |};
          log := [Info_copied source_path source_path] |}) /\
    SimpleFs.content fl' source_path = Some [].
Proof.
  intros Hsrc Hsame.
  unfold copy_file, async_with_open, perform, logger, SimpleFs.start.
  rewrite Hsame.
  cbn -[SimpleFs.content SimpleFs.store]. rewrite Hsrc.
  cbn -[SimpleFs.content SimpleFs.store].
  rewrite content_store_same.
  cbn -[SimpleFs.content SimpleFs.store].
  eexists. split; [reflexivity|]. apply content_store_same.
Qed.

Lemma copy_onto_itself_empties_witness :
  SimpleFs.content [([py "out"; py "txt"; py "a.txt"], [Byte.x68; Byte.x69])]
    [py "out"; py "txt"; py "a.txt"] = Some [Byte.x68; Byte.x69] /\
  destination_path [py "out"; py "txt"; py "a.txt"] [py "out"]
    = [py "out"; py "txt"; py "a.txt"] /\
  exists fl',
    run _ SimpleFs.perform (copy_file [py "out"; py "txt"; py "a.txt"] [py "out"])
      (SimpleFs.start
         [([py "out"; py "txt"; py "a.txt"], [Byte.x68; Byte.x69])]) =
      (Returns tt,
       {| fs := {| SimpleFs.files := fl';
                   SimpleFs.opened := [[py "out"; py "txt"; py "a.txt"];
                                       [py "out"; py "txt"; py "a.txt"]] |};
          log := [Info_copied [py "out"; py "txt"; py "a.txt"]
                    [py "out"; py "txt"; py "a.txt"]] |}) /\
    SimpleFs.content fl' [py "out"; py "txt"; py "a.txt"] = Some [].
Proof.
  split; [reflexivity|]. split; [reflexivity|].
  apply (copy_onto_itself_empties
           [([py "out"; py "txt"; py "a.txt"], [Byte.x68; Byte.x69])]
           [py "out"; py "txt"; py "a.txt"] [py "out"] [Byte.x68; Byte.x69]);
    reflexivity.
Defined.

End FileSorterMore.
